(** * customerimporter: counting customers per e-mail domain

    A shallow embedding of the Go package [customerimporter]
    (src/customerimporter/interview.go) and of the parts of the Go standard
    library it calls, followed by the properties of the package.

    Go strings are byte sequences: they are modelled by [string], whose
    characters are the 256 values of [ascii].  Go's [int] is a 64-bit
    two's-complement integer: it is modelled by [Z] with the wrap-around
    written out ([wrap64]).  A Go [map[string]int] is a [gmap string Z]. *)

From Stdlib Require Import ZArith Ascii String DecimalString List Lia.
From stdpp Require Import gmap strings list sorting relations.

Set Warnings "-clear-no-such-hyp".

Open Scope Z_scope.

(** ** The Unicode tables of the Go library

    [strings.ToLower] and [strings.TrimSpace] work on bytes as long as the
    string is ASCII and fall back on the case and white-space tables of package
    [unicode] at the first byte [>= utf8.RuneSelf].  The byte paths are
    embedded below as they are written in the Go library; the table-driven
    fallbacks are the three functions of this class. *)
Class Unicode := {
  (** [strings.Map(unicode.ToLower, s)] *)
  MapToLower : string -> string;
  (** [strings.TrimFunc(s, unicode.IsSpace)] *)
  TrimFuncIsSpace : string -> string;
  (** [strings.TrimRightFunc(s, unicode.IsSpace)] *)
  TrimRightFuncIsSpace : string -> string
}.

(** The value of a byte. *)
Definition byte_val (c : ascii) : Z := Z.of_N (N_of_ascii c).

(** [utf8.RuneSelf]: bytes below it are one-byte (ASCII) characters. *)
Definition RuneSelf : Z := 128.

Module Strings.

(** [len(s)] *)
Definition len (s : string) : Z := Z.of_nat (String.length s).

(** The slice [s[i:]]. *)
Fixpoint drop (i : nat) (s : string) : string :=
  match i, s with
  | O, _ => s
  | S _, EmptyString => EmptyString
  | S i', String _ s' => drop i' s'
  end.

(** [strings.Index(s, substr)]: the index of the first instance of [substr]
    in [s], or -1. *)
Fixpoint Index (s substr : string) : Z :=
  if String.prefix substr s then 0
  else match s with
       | EmptyString => -1
       | String _ s' =>
           let i := Index s' substr in
           if i <? 0 then -1 else i + 1
       end.

(** [strings.Contains(s, substr)]: [Index(s, substr) >= 0]. *)
Definition Contains (s substr : string) : bool := 0 <=? Index s substr.

(** The loop of [strings.genSplit] with [sepSave = 0]; [k] is the number of
    iterations left ([n - i]). *)
Fixpoint genSplit_loop (s sep : string) (k : nat) : list string :=
  match k with
  | O => [s]
  | S k' =>
      let m := Index s sep in
      if m <? 0 then [s]
      else String.substring 0 (Z.to_nat m) s
           :: genSplit_loop (drop (Z.to_nat m + String.length sep) s) sep k'
  end.

(** [strings.SplitN(s, sep, n)] for a non-empty separator: at most [n]
    substrings for [n > 0], none for [n = 0], all of them for [n < 0].  (With
    an empty separator Go cuts [s] into UTF-8 sequences; the package never
    passes one, and that branch is left out.) *)
Definition SplitN (s sep : string) (n : Z) : list string :=
  if n =? 0 then []
  else
    let n := if (n <? 0) || (len s + 1 <? n) then len s + 1 else n in
    genSplit_loop s sep (Z.to_nat (n - 1)).

Definition isUpperByte (c : ascii) : bool :=
  (byte_val "A" <=? byte_val c) && (byte_val c <=? byte_val "Z").

(** [c += 'a' - 'A'] on a byte. *)
Definition toLowerByte (c : ascii) : ascii :=
  if isUpperByte c
  then ascii_of_N (Z.to_N ((byte_val c + (byte_val "a" - byte_val "A")) mod 256))
  else c.

Fixpoint isASCII (s : string) : bool :=
  match s with
  | EmptyString => true
  | String c s' => (byte_val c <? RuneSelf) && isASCII s'
  end.

Fixpoint hasUpper (s : string) : bool :=
  match s with
  | EmptyString => false
  | String c s' => isUpperByte c || hasUpper s'
  end.

Fixpoint lowerBytes (s : string) : string :=
  match s with
  | EmptyString => EmptyString
  | String c s' => String (toLowerByte c) (lowerBytes s')
  end.

(** The six ASCII white-space bytes of [strings.asciiSpace]:
    ['\t'], ['\n'], ['\v'], ['\f'], ['\r'] and [' ']. *)
Definition asciiSpace (c : ascii) : bool :=
  let v := byte_val c in
  (v =? 9) || (v =? 10) || (v =? 11) || (v =? 12) || (v =? 13) || (v =? 32).

Section WithUnicode.
Context `{U : Unicode}.

(** [strings.ToLower(s)]: an ASCII string is lowered byte by byte (and
    returned as it is when it has no upper-case letter); any other string goes
    through the Unicode tables. *)
Definition ToLower (s : string) : string :=
  if isASCII s then
    if hasUpper s then lowerBytes s else s
  else MapToLower s.

(** The second loop of [strings.TrimSpace]: [s] is [s[start:]] and [stop]
    counts down from its length. *)
Fixpoint trimStop (s : string) (stop : nat) : string :=
  match stop with
  | O => EmptyString
  | S k =>
      match String.get k s with
      | Some c =>
          if RuneSelf <=? byte_val c
          then TrimRightFuncIsSpace (String.substring 0 stop s)
          else if asciiSpace c then trimStop s k
          else String.substring 0 stop s
      | None => EmptyString
      end
  end.

(** [strings.TrimSpace(s)]: the first loop looks for the first byte that is
    not ASCII white space, the second one for the last. *)
Fixpoint TrimSpace (s : string) : string :=
  match s with
  | EmptyString => EmptyString
  | String c s' =>
      if RuneSelf <=? byte_val c then TrimFuncIsSpace s
      else if asciiSpace c then TrimSpace s'
      else trimStop s (String.length s)
  end.

End WithUnicode.

End Strings.

(** ** Package customerimporter: domain extraction *)

Section ExtractDomain.
Context `{U : Unicode}.

(** [extractDomain] (interview.go, lines 196-203). *)
Definition extractDomain (email : string) : string :=
  let emailSplit := Strings.SplitN email "@" 2 in
  if negb (Z.of_nat (length emailSplit) =? 2)
     || Strings.Contains (nth 1 emailSplit "") "@"
  then ""
  else Strings.ToLower (nth 1 emailSplit "").

End ExtractDomain.

(** A table-free instance: strings with a byte outside ASCII are lowered and
    trimmed on their ASCII bytes only.  It is used to run the model on ASCII
    inputs, where the tables are never consulted. *)
Definition trimLeftBytes : string -> string :=
  fix go (s : string) : string :=
    match s with
    | EmptyString => EmptyString
    | String c s' => if Strings.asciiSpace c then go s' else s
    end.

Definition trimRightBytes (s : string) : string :=
  String.rev (trimLeftBytes (String.rev s)).

#[global] Instance ASCIIOnly : Unicode := {|
  MapToLower := Strings.lowerBytes;
  TrimFuncIsSpace := fun s => trimRightBytes (trimLeftBytes s);
  TrimRightFuncIsSpace := trimRightBytes
|}.

(** What the lemmas on [strings.ToLower] use of the case tables of package
    [unicode]: lowering a string that is not ASCII does not return the empty
    string, brings in no ['@'], and returns a string that lowering leaves
    as it is. *)
Class UnicodeLaws (U : Unicode) : Prop := {
  MapToLower_nonempty s :
    Strings.isASCII s = false -> MapToLower s <> "";
  MapToLower_no_at s :
    Strings.isASCII s = false -> Strings.Contains s "@" = false ->
    Strings.Contains (MapToLower s) "@" = false;
  MapToLower_lowered s :
    Strings.isASCII s = false -> Strings.ToLower (MapToLower s) = MapToLower s
}.

(** ** Integers, formatting and errors *)

(** Go's [int] on the 64-bit platforms the program runs on: the result of an
    arithmetic operation is reduced to the interval [-2^63, 2^63). *)
Definition wrap64 (z : Z) : Z := (z + 2 ^ 63) mod 2 ^ 64 - 2 ^ 63.

(** [x++] *)
Definition incr (x : Z) : Z := wrap64 (x + 1).

(** The verb [%d] of package [fmt]: the decimal digits, after a minus sign for
    a negative number. *)
Definition itoa (z : Z) : string := NilZero.string_of_int (Z.to_int z).

(** The newline character, ["\n"] in Go. *)
Definition nl : string := String (ascii_of_nat 10) "".

(** The values of Go's [error] interface that the package meets: [io.EOF], a
    [*csv.ParseError], a [*fs.PathError], and the error made by [fmt.Errorf]
    (a format without [%w]: the new error keeps only the text).  The last
    three carry the text of their [Error()] method. *)
Inductive error :=
| EOF
| ParseError (text : string)
| PathError (text : string)
| Errorf (text : string).

#[global] Instance error_eq_dec : EqDecision error.
Proof. solve_decision. Defined.

(** [err.Error()], which is also what the verb [%v] prints of an error. *)
Definition Error (e : error) : string :=
  match e with
  | EOF => "EOF"
  | ParseError text | PathError text | Errorf text => text
  end.

(** ** Package encoding/csv, as the program uses it *)

Module Csv.

(** What one call of [Read] returns before the end of the input: the record,
    and the text of the [*csv.ParseError] when the call fails (a record with
    the wrong number of fields is returned together with its error). *)
Definition ReadResult : Type := list string * option string.

(** A [*csv.Reader] over an input that is read without I/O errors: the
    results of the calls of [Read] still to come.  Once they are used up,
    [Read] returns [(nil, io.EOF)], again and again. *)
Definition Reader : Type := list ReadResult.

(** [r.Read()]: the record, the error, and the reader afterwards. *)
Definition Read (r : Reader) : list string * option error * Reader :=
  match r with
  | [] => ([], Some EOF, [])
  | (record, err) :: r' => (record, ParseError <$> err, r')
  end.

(** *** Plain texts

    The reader over a text with neither a double quote nor a carriage return,
    where every line is a record and every comma separates two fields. *)

(** The lines of a text, each without its ['\n']; the last line may lack it. *)
Fixpoint lines_go (cur : string) (s : string) : list string :=
  match s with
  | EmptyString => if decide (cur = "") then [] else [String.rev cur]
  | String c s' =>
      if decide (c = "010"%char) then String.rev cur :: lines_go "" s'
      else lines_go (String c cur) s'
  end.
Definition lines (s : string) : list string := lines_go "" s.

(** The fields of a line without quotes: the pieces between the commas. *)
Fixpoint fields_go (cur : string) (s : string) : list string :=
  match s with
  | EmptyString => [String.rev cur]
  | String c s' =>
      if decide (c = ","%char) then String.rev cur :: fields_go "" s'
      else fields_go (String c cur) s'
  end.
Definition fields (line : string) : list string := fields_go "" line.

(** [readRecord] over the lines still to read: an empty line is skipped; the
    first record sets [FieldsPerRecord] (0 until then), and a later record
    with another number of fields is returned with [ErrFieldCount]. *)
Fixpoint records (numLine : Z) (FieldsPerRecord : Z) (ls : list string)
  : Reader :=
  match ls with
  | [] => []
  | line :: ls' =>
      let numLine := numLine + 1 in
      if decide (line = "") then records numLine FieldsPerRecord ls'
      else
        let dst := fields line in
        if 0 <? FieldsPerRecord then
          if negb (Z.of_nat (length dst) =? FieldsPerRecord) then
            (dst, Some ("record on line " +:+ itoa numLine
                        +:+ ": wrong number of fields"))
            :: records numLine FieldsPerRecord ls'
          else (dst, None) :: records numLine FieldsPerRecord ls'
        else (dst, None) :: records numLine (Z.of_nat (length dst)) ls'
  end.

Definition is_plain (text : string) : bool :=
  negb (Strings.Contains text (String (ascii_of_nat 34) ""))
  && negb (Strings.Contains text (String (ascii_of_nat 13) "")).

(** [csv.NewReader] over a plain text; [None] for a text that is not plain. *)
Definition NewReader (text : string) : option Reader :=
  if is_plain text then Some (records 0 0 (lines text)) else None.

End Csv.

(** ** Package customerimporter: the pipeline *)

Definition EMAIL_IDX : Z := 2.

Record DomainStat := { Name : string; Count : Z }.

Record DomainsCount := { DomainStats : list DomainStat; TotalCount : Z }.

(** [DomainsCount{}], the zero value. *)
Definition DomainsCount_zero : DomainsCount :=
  {| DomainStats := []; TotalCount := 0 |}.

(** A [chan string]: the strings in its buffer, oldest first, and whether it
    has been closed.  Its capacity is [numWorkers] for both channels of
    [processCsv]. *)
Record Chan := { buf : list string; closed : bool }.

Definition make_chan : Chan := {| buf := []; closed := false |}.

(** [ch <- x] can proceed when the buffer has room. *)
Definition can_send (cap : Z) (ch : Chan) : bool :=
  Z.of_nat (length (buf ch)) <? cap.

Definition send (x : string) (ch : Chan) : Chan :=
  {| buf := buf ch ++ [x]; closed := closed ch |}.

Definition close (ch : Chan) : Chan := {| buf := buf ch; closed := true |}.

(** [domainMap[domain]++]: a missing key reads as 0. *)
Definition map_incr (domain : string) (domainMap : gmap string Z)
  : gmap string Z :=
  <[domain := incr (default 0 (domainMap !! domain))]> domainMap.

(** Where each goroutine of [processCsv] stands.

    [csvReader]: at the top of its loop, about to call [Read]; holding an
    e-mail address to send on [emailChan]; or returned.
    [extractDomains]: waiting to receive from [emailChan]; holding a domain to
    send on [domains]; or returned.
    [aggregateDomains]: waiting to receive from [domains]; or returned.
    [processCsv] itself, once it has started the others: in [wg.Wait()];
    having closed [domains] and waiting on [doneAggregating]; or returned. *)
Inductive ReaderPC := RRead | RSend (email : string) | RDone.
Inductive WorkerPC := WRecv | WSend (domain : string) | WDone.
Inductive AggPC := ARecv | ADone.
Inductive MainPC := MWait | MDrain | MReturned.

#[global] Instance ReaderPC_eq_dec : EqDecision ReaderPC.
Proof. solve_decision. Defined.
#[global] Instance WorkerPC_eq_dec : EqDecision WorkerPC.
Proof. solve_decision. Defined.
#[global] Instance AggPC_eq_dec : EqDecision AggPC.
Proof. solve_decision. Defined.
#[global] Instance MainPC_eq_dec : EqDecision MainPC.
Proof. solve_decision. Defined.

(** The state shared by the goroutines of one call of [processCsv], with the
    local variables of each.  [logged] is what package [log] has been asked to
    print, oldest first, without the time stamps. *)
Record State := {
  csvreader : Csv.Reader;
  lineNum : Z;
  readerPC : ReaderPC;
  emailChan : Chan;
  workers : list WorkerPC;
  domains : Chan;
  domainMap : gmap string Z;
  totalCustomers : Z;
  aggPC : AggPC;
  mainPC : MainPC;
  logged : list string
}.

Definition set_reader (rd : Csv.Reader) (n : Z) (pc : ReaderPC) (s : State) :=
  {| csvreader := rd; lineNum := n; readerPC := pc;
     emailChan := emailChan s; workers := workers s; domains := domains s;
     domainMap := domainMap s; totalCustomers := totalCustomers s;
     aggPC := aggPC s; mainPC := mainPC s; logged := logged s |}.

Definition set_emailChan (ch : Chan) (s : State) :=
  {| csvreader := csvreader s; lineNum := lineNum s; readerPC := readerPC s;
     emailChan := ch; workers := workers s; domains := domains s;
     domainMap := domainMap s; totalCustomers := totalCustomers s;
     aggPC := aggPC s; mainPC := mainPC s; logged := logged s |}.

Definition set_workers (ws : list WorkerPC) (s : State) :=
  {| csvreader := csvreader s; lineNum := lineNum s; readerPC := readerPC s;
     emailChan := emailChan s; workers := ws; domains := domains s;
     domainMap := domainMap s; totalCustomers := totalCustomers s;
     aggPC := aggPC s; mainPC := mainPC s; logged := logged s |}.

Definition set_domains (ch : Chan) (s : State) :=
  {| csvreader := csvreader s; lineNum := lineNum s; readerPC := readerPC s;
     emailChan := emailChan s; workers := workers s; domains := ch;
     domainMap := domainMap s; totalCustomers := totalCustomers s;
     aggPC := aggPC s; mainPC := mainPC s; logged := logged s |}.

Definition set_aggregate (m : gmap string Z) (total : Z) (s : State) :=
  {| csvreader := csvreader s; lineNum := lineNum s; readerPC := readerPC s;
     emailChan := emailChan s; workers := workers s; domains := domains s;
     domainMap := m; totalCustomers := total;
     aggPC := aggPC s; mainPC := mainPC s; logged := logged s |}.

Definition set_aggPC (pc : AggPC) (s : State) :=
  {| csvreader := csvreader s; lineNum := lineNum s; readerPC := readerPC s;
     emailChan := emailChan s; workers := workers s; domains := domains s;
     domainMap := domainMap s; totalCustomers := totalCustomers s;
     aggPC := pc; mainPC := mainPC s; logged := logged s |}.

Definition set_mainPC (pc : MainPC) (s : State) :=
  {| csvreader := csvreader s; lineNum := lineNum s; readerPC := readerPC s;
     emailChan := emailChan s; workers := workers s; domains := domains s;
     domainMap := domainMap s; totalCustomers := totalCustomers s;
     aggPC := aggPC s; mainPC := pc; logged := logged s |}.

Definition log_Print (text : string) (s : State) :=
  {| csvreader := csvreader s; lineNum := lineNum s; readerPC := readerPC s;
     emailChan := emailChan s; workers := workers s; domains := domains s;
     domainMap := domainMap s; totalCustomers := totalCustomers s;
     aggPC := aggPC s; mainPC := mainPC s; logged := logged s ++ [text] |}.

(** The goroutines, which the Go scheduler runs in any order. *)
Inductive Goroutine :=
| G_csvReader
| G_extractDomains (i : nat)
| G_aggregateDomains
| G_processCsv.

Section Pipeline.
Context `{U : Unicode}.

(** One step of [csvReader] (interview.go, lines 157-181): an iteration of its
    loop up to the send, or the send itself.  At the end of the input the
    deferred calls close [emailChan] and tell the wait group. *)
Definition csvReader (cap : Z) (s : State) : option State :=
  match readerPC s with
  | RRead =>
      let '(records, err, rd) := Csv.Read (csvreader s) in
      let lineNum := incr (lineNum s) in
      match err with
      | Some EOF =>
          Some (set_emailChan (close (emailChan s))
                  (set_reader rd lineNum RDone
                     (log_Print ("End of file reached" +:+ nl) s)))
      | Some err =>
          Some (set_reader rd lineNum RRead
                  (log_Print ("Error reading csv line " +:+ itoa (wrap64 (lineNum + 1))
                              +:+ ": " +:+ Error err +:+ nl) s))
      | None =>
          if Z.of_nat (length records) <=? EMAIL_IDX then
            Some (set_reader rd lineNum RRead
                    (log_Print ("Line " +:+ itoa lineNum
                                +:+ " email column index out of range" +:+ nl) s))
          else
            Some (set_reader rd lineNum
                    (RSend (nth (Z.to_nat EMAIL_IDX) records "")) s)
      end
  | RSend email =>
      if can_send cap (emailChan s) then
        Some (set_emailChan (send email (emailChan s))
                (set_reader (csvreader s) (lineNum s) RRead s))
      else None
  | RDone => None
  end.

(** One step of the [i]-th [extractDomains] worker (lines 183-194): a receive
    from [emailChan] with the extraction, the send of the domain, or the end
    of its [range] loop when [emailChan] is closed and empty. *)
Definition extractDomains (cap : Z) (i : nat) (s : State) : option State :=
  match workers s !! i with
  | Some WRecv =>
      match buf (emailChan s) with
      | email :: rest =>
          let s := set_emailChan {| buf := rest; closed := closed (emailChan s) |} s in
          let domain := extractDomain (Strings.TrimSpace email) in
          if decide (domain = "") then
            Some (log_Print ("Invalid email address, doesn't contain domain name" +:+ nl) s)
          else Some (set_workers (<[i := WSend domain]> (workers s)) s)
      | [] =>
          if closed (emailChan s)
          then Some (set_workers (<[i := WDone]> (workers s)) s)
          else None
      end
  | Some (WSend domain) =>
      if can_send cap (domains s) then
        Some (set_domains (send domain (domains s))
                (set_workers (<[i := WRecv]> (workers s)) s))
      else None
  | Some WDone | None => None
  end.

(** One step of [aggregateDomains] (lines 205-212): a receive with the two
    increments, or the end of its loop, which closes [doneAggregating]. *)
Definition aggregateDomains (s : State) : option State :=
  match aggPC s with
  | ARecv =>
      match buf (domains s) with
      | domain :: rest =>
          Some (set_aggregate (map_incr domain (domainMap s))
                  (incr (totalCustomers s))
                  (set_domains {| buf := rest; closed := closed (domains s) |} s))
      | [] =>
          if closed (domains s) then Some (set_aggPC ADone s) else None
      end
  | ADone => None
  end.

(** One step of [processCsv] after it has started the goroutines (lines
    149-154): [wg.Wait()] returns when [csvReader] and every worker are done,
    and [domains] is closed; the receive from [doneAggregating] returns when
    [aggregateDomains] is done. *)
Definition processCsv_wait (s : State) : option State :=
  match mainPC s with
  | MWait =>
      if bool_decide (readerPC s = RDone)
         && forallb (fun w => bool_decide (w = WDone)) (workers s)
      then Some (set_mainPC MDrain (set_domains (close (domains s)) s))
      else None
  | MDrain =>
      match aggPC s with
      | ADone => Some (set_mainPC MReturned s)
      | ARecv => None
      end
  | MReturned => None
  end.

(** The step of goroutine [g], when it can take one. *)
Definition run (cap : Z) (g : Goroutine) (s : State) : option State :=
  match g with
  | G_csvReader => csvReader cap s
  | G_extractDomains i => extractDomains cap i s
  | G_aggregateDomains => aggregateDomains s
  | G_processCsv => processCsv_wait s
  end.

(** A step of the program: a step of some goroutine. *)
Definition step (cap : Z) (s s' : State) : Prop :=
  exists g, run cap g s = Some s'.

(** A schedule run from a state: each goroutine of the list takes its step in
    turn; [None] when one of them cannot. *)
Fixpoint run_schedule (cap : Z) (gs : list Goroutine) (s : State) : option State :=
  match gs with
  | [] => Some s
  | g :: gs' =>
      match run cap g s with
      | Some s' => run_schedule cap gs' s'
      | None => None
      end
  end.

(** The state of [processCsv] (lines 131-147) once the header is read and the
    goroutines are started: two empty channels, [numWorkers] workers, an empty
    map. *)
Definition start (rd : Csv.Reader) (numWorkers : Z) : State :=
  {| csvreader := rd; lineNum := 0; readerPC := RRead;
     emailChan := make_chan;
     workers := replicate (Z.to_nat numWorkers) WRecv;
     domains := make_chan;
     domainMap := ∅; totalCustomers := 0;
     aggPC := ARecv; mainPC := MWait; logged := [] |}.

(** [processCsv] (lines 123-155) returns [(domainMap, totalCustomers, err)]:
    the error of the header, wrapped in a text, or what the map and the
    counter hold when the last receive of some run returns. *)
Inductive processCsv (reader : Csv.Reader) (numWorkers : Z)
  : gmap string Z * Z * option error -> Prop :=
| processCsv_header record err rd :
    Csv.Read reader = (record, Some err, rd) ->
    processCsv reader numWorkers
      (∅, 0, Some (Errorf ("error reading the header of csv: " +:+ Error err)))
| processCsv_done record rd s :
    Csv.Read reader = (record, None, rd) ->
    rtc (step numWorkers) (start rd numWorkers) s ->
    mainPC s = MReturned ->
    processCsv reader numWorkers (domainMap s, totalCustomers s, None).

End Pipeline.

(** ** What a run of the pipeline works on

    The functions below follow one string through the goroutines: what
    [csvReader] sends for a result of [Read], what a worker sends for an
    address, and the two increments of [aggregateDomains] run over a list of
    domains one after the other. *)

(** The address that [csvReader] sends for one result of [Read]: none for a
    result with an error or with [len(records) <= EMAIL_IDX]. *)
Definition email_of (res : Csv.ReadResult) : option string :=
  match res with
  | (records, None) =>
      if Z.of_nat (length records) <=? EMAIL_IDX then None
      else Some (nth (Z.to_nat EMAIL_IDX) records "")
  | (_, Some _) => None
  end.

Definition emails (rd : Csv.Reader) : list string := omap email_of rd.

Section Summary.
Context `{U : Unicode}.

(** The domain that a worker sends for one address: none when
    [extractDomain] returns [""]. *)
Definition domain_of (email : string) : option string :=
  let domain := extractDomain (Strings.TrimSpace email) in
  if decide (domain = "") then None else Some domain.

Definition domains_of (emails : list string) : list string :=
  omap domain_of emails.

End Summary.

(** The loop body of [aggregateDomains] over a list of domains. *)
Definition aggregate (ds : list string) : gmap string Z * Z :=
  foldl (fun acc domain => (map_incr domain acc.1, incr acc.2)) (∅, 0) ds.

(** The strings that are on their way to [aggregateDomains] in a state. *)
Definition reader_held (pc : ReaderPC) : list string :=
  match pc with RSend email => [email] | _ => [] end.

Definition worker_held (w : WorkerPC) : list string :=
  match w with WSend domain => [domain] | _ => [] end.

Definition pending `{U : Unicode} (s : State) : list string :=
  buf (domains s)
  ++ (workers s ≫= worker_held)
  ++ domains_of (buf (emailChan s) ++ reader_held (readerPC s)
                 ++ emails (csvreader s)).

(** How many steps a state is from the end, at most. *)
Definition reader_weight (pc : ReaderPC) : nat :=
  match pc with RRead => 1 | RSend _ => 5 | RDone => 0 end.

Definition worker_weight (w : WorkerPC) : nat :=
  match w with WRecv => 1 | WSend _ => 3 | WDone => 0 end.

Definition agg_weight (pc : AggPC) : nat :=
  match pc with ARecv => 1 | ADone => 0 end.

Definition main_weight (pc : MainPC) : nat :=
  match pc with MWait => 2 | MDrain => 1 | MReturned => 0 end.

Definition steps_left (s : State) : nat :=
  5 * length (csvreader s) + reader_weight (readerPC s)
  + 3 * length (buf (emailChan s))
  + sum_list_with worker_weight (workers s)
  + length (buf (domains s))
  + agg_weight (aggPC s) + main_weight (mainPC s).

(** What holds of every state that [processCsv] reaches with [numWorkers]
    workers, whatever the schedule. *)
Record consistent (numWorkers : Z) (s : State) : Prop := {
  cons_workers : length (workers s) = Z.to_nat numWorkers;
  cons_email_closed : closed (emailChan s) = true <-> readerPC s = RDone;
  cons_reader_done : readerPC s = RDone -> csvreader s = [];
  cons_worker_done :
    WDone ∈ workers s -> closed (emailChan s) = true /\ buf (emailChan s) = [];
  cons_domains_closed : closed (domains s) = true <-> mainPC s <> MWait;
  cons_waited :
    mainPC s <> MWait ->
    readerPC s = RDone /\ Forall (fun w => w = WDone) (workers s);
  cons_agg_done :
    aggPC s = ADone -> closed (domains s) = true /\ buf (domains s) = [];
  cons_returned : mainPC s = MReturned -> aggPC s = ADone
}.

(** The domains of the rows of [rd0] are either counted or still on their
    way: some list [done] of them, which with the pending ones makes up all of
    them, has been aggregated into the map and the total. *)
Definition accounted `{U : Unicode} (rd0 : Csv.Reader) (s : State) : Prop :=
  exists done : list string,
    done ++ pending s ≡ₚ domains_of (emails rd0)
    /\ aggregate done = (domainMap s, totalCustomers s).

(** [processCsv] as a function: the error of the header, or the aggregate of
    the domains of the rows after it, in their order in the file. *)
Definition processCsv_result `{U : Unicode} (reader : Csv.Reader)
  : gmap string Z * Z * option error :=
  match Csv.Read reader with
  | (_, Some err, _) =>
      (∅, 0, Some (Errorf ("error reading the header of csv: " +:+ Error err)))
  | (_, None, rd) =>
      let '(domainMap, totalCustomers) := aggregate (domains_of (emails rd)) in
      (domainMap, totalCustomers, None)
  end.

(** The sum of the counts of a list of entries. *)
Definition sum_counts (l : list DomainStat) : Z :=
  foldr (fun st acc => Count st + acc) 0 l.

(** ** Package customerimporter: the report *)

(** The comparison passed to [sort.Slice] by [createStats]:
    [domainStats[i].Name < domainStats[j].Name], Go's byte-wise order on
    strings. *)
Definition less (a b : DomainStat) : bool := String.ltb (Name a) (Name b).

(** [a] may stand before [b] in a slice sorted by [less]: [b] is not [less]
    than [a]. *)
Definition in_order {A} (less : A -> A -> bool) (a b : A) : Prop :=
  less b a = false.

#[global] Instance in_order_dec {A} (less : A -> A -> bool)
  : RelDecision (in_order less).
Proof. intros a b. unfold in_order. apply _. Defined.

(** [sort.Slice(x, less)] leaves [x] sorted: no element is [less] than one
    before it.  Here a merge sort stands for the sort of the Go library. *)
Definition sort_Slice {A} (less : A -> A -> bool) (x : list A) : list A :=
  merge_sort (in_order less) x.

Definition stat_of (entry : string * Z) : DomainStat :=
  {| Name := entry.1; Count := entry.2 |}.

(** [createStats] (interview.go, lines 107-121), ranging over the map in the
    order of [map_to_list]. *)
Definition createStats (domainMap : gmap string Z) : list DomainStat :=
  sort_Slice less (stat_of <$> map_to_list domainMap).

(** [createStats] as Go runs it: [range] visits the entries of the map in an
    order that is not specified, and [sort.Slice], which is not stable,
    returns some permutation that is sorted. *)
Inductive createStats_any_order (domainMap : gmap string Z)
  : list DomainStat -> Prop :=
| createStats_intro entries domainStats :
    entries ≡ₚ map_to_list domainMap ->
    domainStats ≡ₚ stat_of <$> entries ->
    Sorted (in_order less) domainStats ->
    createStats_any_order domainMap domainStats.

(** [os.Open]: for each path, the error of the call or the file, given by the
    reader that [csv.NewReader] makes of it. *)
Definition FileSystem : Type := string -> Csv.Reader + error.

Section ProcessFile.
Context `{U : Unicode}.

(** [ProcessFile] (lines 85-105) returns a [DomainsCount] and an error;
    [NumCPU] is [runtime.NumCPU()]. *)
Inductive ProcessFile (fs : FileSystem) (NumCPU : Z) (filePath : string)
  : DomainsCount * option error -> Prop :=
| ProcessFile_open err :
    fs filePath = inr err ->
    ProcessFile fs NumCPU filePath (DomainsCount_zero, Some err)
| ProcessFile_csv file domainMap totalcustomers err :
    fs filePath = inl file ->
    processCsv file NumCPU (domainMap, totalcustomers, Some err) ->
    ProcessFile fs NumCPU filePath (DomainsCount_zero, Some err)
| ProcessFile_ok file domainMap totalcustomers domainStats :
    fs filePath = inl file ->
    processCsv file NumCPU (domainMap, totalcustomers, None) ->
    createStats_any_order domainMap domainStats ->
    ProcessFile fs NumCPU filePath
      ({| DomainStats := domainStats; TotalCount := totalcustomers |}, None).

End ProcessFile.

(** ** Package customerimporter: the output *)

(** [fmt.Sprintf(OUTPUT_LINE_FORMAT, name, count)] with
    [OUTPUT_LINE_FORMAT = "Domain: %s, Customers: %d\n"]. *)
Definition OUTPUT_LINE_FORMAT (name : string) (count : Z) : string :=
  "Domain: " +:+ name +:+ ", Customers: " +:+ itoa count +:+ nl.

(** What is at a path of the disk: a file with its bytes, or something that
    [os.OpenFile] cannot open for writing (a directory, a file without the
    permission, a path under a missing directory), with the text of the
    error.  A path that is not on the disk can be created. *)
Inductive Node := File (content : string) | Denied (text : string).

(** The outside of the program as the output functions change it.  The disk
    takes every write to an open file: the branches of [writeFile] for a
    [WriteString] or a [Flush] that fails are never taken and are not
    written here. *)
Record World := {
  disk : gmap string Node;
  stdout : string;
  printed : list string
}.

(** [os.OpenFile(path, os.O_WRONLY|os.O_CREATE|os.O_TRUNC, 0644)]. *)
Definition os_OpenFile (path : string) (w : World) : World + error :=
  match disk w !! path with
  | Some (Denied text) => inr (PathError text)
  | _ => inl {| disk := <[path := File ""]> (disk w);
                stdout := stdout w; printed := printed w |}
  end.

(** A [*bufio.Writer]: the bytes written and not yet flushed. *)
Definition Writer : Type := string.

Definition WriteString (writer : Writer) (s : string) : Writer := writer +:+ s.

(** [writer.Flush()] onto the file opened at [path]. *)
Definition Flush (writer : Writer) (path : string) (w : World) : World :=
  match disk w !! path with
  | Some (File content) =>
      {| disk := <[path := File (content +:+ writer)]> (disk w);
         stdout := stdout w; printed := printed w |}
  | _ => w
  end.

(** [writeFile] (lines 43-75); [filePath] is [*filePath]. *)
Definition writeFile (domainsCount : DomainsCount) (filePath : string)
    (w : World) : World * option error :=
  match os_OpenFile filePath w with
  | inr err =>
      ({| disk := disk w; stdout := stdout w;
          printed := printed w ++ ["Error opening file: " +:+ Error err] |},
       Some err)
  | inl w =>
      let writer : Writer := "" in
      let header :=
        "Total number of customers: " +:+ itoa (TotalCount domainsCount) +:+ nl in
      let writer := WriteString writer header in
      let writer :=
        foldl (fun writer domainStat =>
                 let line := OUTPUT_LINE_FORMAT (Name domainStat) (Count domainStat) in
                 WriteString writer line)
              writer (DomainStats domainsCount) in
      (Flush writer filePath w, None)
  end.

(** [writeStdOut] (lines 77-83). *)
Definition writeStdOut (domainsCount : DomainsCount) (w : World)
  : World * option error :=
  let out :=
    stdout w +:+ "Total number of customers: "
    +:+ itoa (TotalCount domainsCount) +:+ nl in
  let out :=
    foldl (fun out domainStat =>
             out +:+ OUTPUT_LINE_FORMAT (Name domainStat) (Count domainStat))
          out (DomainStats domainsCount) in
  ({| disk := disk w; stdout := out; printed := printed w |}, None).

(** [WriteOutput] (lines 35-41); a nil [filePath] is [None]. *)
Definition WriteOutput (domainsCount : DomainsCount) (filePath : option string)
    (w : World) : World * option error :=
  match filePath with
  | Some path =>
      if decide (path = "") then writeStdOut domainsCount w
      else writeFile domainsCount path w
  | None => writeStdOut domainsCount w
  end.

(** ** Definitions used to state the properties *)

(** Validity of an address as the specification words it: cutting at the
    first ['@'] gives a non-empty left part and a right part without another
    ['@']. *)
Definition spec_valid_address (s : string) : Prop :=
  exists l r,
    s = l +:+ String "@" r
    /\ Strings.Contains l "@" = false
    /\ l <> ""
    /\ Strings.Contains r "@" = false.

(** The five addresses of the end-to-end example, and its report. *)
Definition five_emails : list string :=
  [ "mhernandez0@github.io"; "bortiz1@github.io"; "dhenry2@github.io";
    "ghenderson6@acquirethisname.com"; "nallen8@cnet.com" ].

Definition five_report : DomainsCount :=
  {| DomainStats :=
       [ {| Name := "acquirethisname.com"; Count := 1 |};
         {| Name := "cnet.com"; Count := 1 |};
         {| Name := "github.io"; Count := 3 |} ];
     TotalCount := 5 |}.

(** The input of [TestProcessCsv_ValidCsv]. *)
Definition five_rows_csv : string :=
  "first_name,last_name,email,gender,ip_address" +:+ nl +:+
  "Mildred,Hernandez,mhernandez0@github.io,Female,38.194.51.128" +:+ nl +:+
  "Bonnie,Ortiz,bortiz1@github.io,Female,197.54.209.129" +:+ nl +:+
  "Dennis,Henry,dhenry2@github.io,Male,155.75.186.217" +:+ nl +:+
  "Gary,Henderson,ghenderson6@acquirethisname.com,Male,30.97.220.14" +:+ nl +:+
  "Norma,Allen,nallen8@cnet.com,Female,168.67.162.1".

(** The file system with one file, [path], holding [text]. *)
Definition one_file (path text : string) : FileSystem :=
  fun p =>
    if decide (p = path) then
      match Csv.NewReader text with
      | Some rd => inl rd
      | None => inr (PathError ("open " +:+ p +:+ ": not a plain text"))
      end
    else inr (PathError ("open " +:+ p +:+ ": no such file or directory")).

(** The text of a report: the line of the total, then a line for each entry
    in the order of the report. *)
Definition report_lines (l : list DomainStat) : string :=
  foldr (fun st text =>
           "Domain: " +:+ Name st +:+ ", Customers: " +:+ itoa (Count st)
           +:+ nl +:+ text)
        "" l.

Definition report_text (domainsCount : DomainsCount) : string :=
  "Total number of customers: " +:+ itoa (TotalCount domainsCount) +:+ nl
  +:+ report_lines (DomainStats domainsCount).

(** A world with an empty disk and nothing printed. *)
Definition empty_world : World := {| disk := ∅; stdout := ""; printed := [] |}.

(** [ProcessFile] as a function of what [os.Open] returns. *)
Definition ProcessFile_result `{U : Unicode} (opened : Csv.Reader + error)
  : DomainsCount * option error :=
  match opened with
  | inr err => (DomainsCount_zero, Some err)
  | inl file =>
      match processCsv_result file with
      | (_, _, Some err) => (DomainsCount_zero, Some err)
      | (domainMap, totalcustomers, None) =>
          ({| DomainStats := createStats domainMap;
              TotalCount := totalcustomers |}, None)
      end
  end.

(** ** The command (package main) *)

(** [main]: [input] and [output] are the values of the flags [-input] and
    [-output] after [flag.Parse()].  [log.Fatal] prints its text and ends the
    program with status 1; a [main] that returns ends it with status 0.  The
    result is the world afterwards and the exit status. *)
Inductive main `{U : Unicode} (fs : FileSystem) (NumCPU : Z)
    (input output : string) (w : World) : World * Z -> Prop :=
| main_no_input :
    input = "" ->
    main fs NumCPU input output w
      ({| disk := disk w; stdout := stdout w;
          printed := printed w ++ ["-input flag is required"] |}, 1)
| main_process_error domainsCount err :
    input <> "" ->
    ProcessFile fs NumCPU input (domainsCount, Some err) ->
    main fs NumCPU input output w
      ({| disk := disk w; stdout := stdout w;
          printed := printed w ++ ["Error processing file: " +:+ Error err] |}, 1)
| main_write_error domainsCount w' err :
    input <> "" ->
    ProcessFile fs NumCPU input (domainsCount, None) ->
    WriteOutput domainsCount (Some output) w = (w', Some err) ->
    main fs NumCPU input output w
      ({| disk := disk w'; stdout := stdout w';
          printed := printed w' ++ ["Error writing ouput: " +:+ Error err] |}, 1)
| main_done domainsCount w' :
    input <> "" ->
    ProcessFile fs NumCPU input (domainsCount, None) ->
    WriteOutput domainsCount (Some output) w = (w', None) ->
    main fs NumCPU input output w (w', 0).

(** Both channels hold at most [numWorkers] strings. *)
Definition within_capacity (numWorkers : Z) (s : State) : Prop :=
  Z.of_nat (length (buf (emailChan s))) <= numWorkers
  /\ Z.of_nat (length (buf (domains s))) <= numWorkers.

(** The rows that [csvReader] skips and the addresses that a worker drops. *)
Definition skipped_rows (rd : Csv.Reader) : list Csv.ReadResult :=
  filter (fun res => email_of res = None) rd.

Definition dropped_emails `{U : Unicode} (l : list string) : list string :=
  filter (fun email => domain_of email = None) l.

(** A small reader and one schedule of its run with two workers, used to
    run the model from the start to the return of [processCsv]. *)
Definition demo_reader : Csv.Reader :=
  [ (["Ann"; "Lee"; " ann@Example.org "], None);
    (["Bob"; "Ray"], Some "record on line 3: wrong number of fields");
    (["Cy"; "Fox"; "cy-at-example.org"], None) ].

Definition demo_schedule : list Goroutine :=
  [ G_csvReader; G_csvReader; G_extractDomains 1; G_csvReader; G_csvReader;
    G_extractDomains 1; G_csvReader; G_aggregateDomains; G_extractDomains 0;
    G_csvReader; G_extractDomains 0; G_extractDomains 1; G_processCsv;
    G_aggregateDomains; G_processCsv ].

(** The lines that a state has still to print: one for each row to skip and
    each address to drop among those not yet handled, and the line of the end
    of the file. *)
Definition to_log `{U : Unicode} (s : State) : nat :=
  length (skipped_rows (csvreader s))
  + length (dropped_emails (buf (emailChan s) ++ reader_held (readerPC s)
                            ++ emails (csvreader s)))
  + (if decide (readerPC s = RDone) then 0 else 1).
Example extractDomain_simple : extractDomain "test@example.com" = "example.com".
Proof. reflexivity. Qed.

(** ** Facts about the string functions *)

Lemma append_nil_l r : "" +:+ r = r.
Proof. reflexivity. Qed.

Lemma append_cons a l r : String a l +:+ r = String a (l +:+ r).
Proof. reflexivity. Qed.

Lemma prefix_empty s : String.prefix "" s = true.
Proof. destruct s; reflexivity. Qed.

Lemma Index_lower_bound s sep : -1 <= Strings.Index s sep.
Proof.
  induction s as [|a s IH]; cbn [Strings.Index].
  - destruct (String.prefix sep ""); lia.
  - destruct (String.prefix sep (String a s)); [lia|].
    destruct (Strings.Index s sep <? 0) eqn:E; lia.
Qed.

Lemma Index_char_nil c : Strings.Index "" (String c "") = -1.
Proof. reflexivity. Qed.

Lemma Index_char_cons c a s :
  Strings.Index (String a s) (String c "") =
  if decide (c = a) then 0
  else if Strings.Index s (String c "") <? 0 then -1
       else Strings.Index s (String c "") + 1.
Proof.
  cbn [Strings.Index String.prefix].
  destruct (ascii_dec c a) as [->|Hne].
  - rewrite prefix_empty. rewrite decide_True by done. reflexivity.
  - rewrite decide_False by done. reflexivity.
Qed.

Lemma Contains_char_nil c : Strings.Contains "" (String c "") = false.
Proof. reflexivity. Qed.

Lemma Contains_char_cons c a s :
  Strings.Contains (String a s) (String c "") =
  if decide (c = a) then true else Strings.Contains s (String c "").
Proof.
  unfold Strings.Contains. rewrite Index_char_cons.
  pose proof (Index_lower_bound s (String c "")).
  destruct (decide (c = a)); [reflexivity|].
  destruct (Strings.Index s (String c "") <? 0) eqn:E.
  - apply Z.ltb_lt in E. symmetry. apply Z.leb_gt. lia.
  - apply Z.ltb_ge in E. transitivity true; [|symmetry]; apply Z.leb_le; lia.
Qed.

Lemma Contains_char_app c l r :
  Strings.Contains (l +:+ r) (String c "") =
  Strings.Contains l (String c "") || Strings.Contains r (String c "").
Proof.
  induction l as [|a l IH]; [reflexivity|].
  rewrite append_cons, !Contains_char_cons.
  destruct (decide (c = a)); [reflexivity|exact IH].
Qed.

(** Where [Index] finds the byte [c], it cuts [s] into the part before the
    first [c] and the part after it. *)
Lemma Index_char_found c s :
  0 <= Strings.Index s (String c "") ->
  let m := Z.to_nat (Strings.Index s (String c "")) in
  s = String.substring 0 m s +:+ String c (Strings.drop (m + 1) s)
  /\ Strings.Contains (String.substring 0 m s) (String c "") = false.
Proof.
  induction s as [|a s IH]; [cbn; lia|].
  rewrite Index_char_cons.
  destruct (decide (c = a)) as [->|Hne].
  - intros _. cbn. split; [reflexivity|].
    destruct s; reflexivity.
  - destruct (Strings.Index s (String c "") <? 0) eqn:E; [lia|].
    apply Z.ltb_ge in E. intros _.
    destruct (IH E) as [Hs Hl].
    rewrite Z2Nat.inj_add by lia.
    change (Z.to_nat 1) with 1%nat.
    rewrite Nat.add_1_r. cbn [String.substring Strings.drop Nat.add].
    rewrite append_cons. split.
    + f_equal. exact Hs.
    + rewrite Contains_char_cons, decide_False by done. exact Hl.
Qed.

Lemma Index_char_absent c s :
  Strings.Contains s (String c "") = false <-> Strings.Index s (String c "") = -1.
Proof.
  unfold Strings.Contains. pose proof (Index_lower_bound s (String c "")).
  rewrite Z.leb_gt. lia.
Qed.

(** The index found in [l ++ c ++ r] when [c] is not in [l] is the length of
    [l]. *)
Lemma Index_char_app c l r :
  Strings.Contains l (String c "") = false ->
  Strings.Index (l +:+ String c r) (String c "") = Strings.len l.
Proof.
  induction l as [|a l IH]; intros Hl.
  - rewrite append_nil_l, Index_char_cons, decide_True by done. reflexivity.
  - rewrite Contains_char_cons in Hl.
    destruct (decide (c = a)) as [|Hne]; [discriminate|].
    rewrite append_cons, Index_char_cons, decide_False by done.
    rewrite (IH Hl). unfold Strings.len. cbn [String.length].
    destruct (Z.of_nat (String.length l) <? 0) eqn:E; [apply Z.ltb_lt in E|]; lia.
Qed.

Lemma substring_app_l l r : String.substring 0 (String.length l) (l +:+ r) = l.
Proof.
  induction l as [|a l IH].
  - destruct r; reflexivity.
  - rewrite append_cons. cbn [String.length String.substring]. f_equal. exact IH.
Qed.

Lemma drop_app_l l r : Strings.drop (String.length l) (l +:+ r) = r.
Proof. induction l as [|a l IH]; [reflexivity|exact IH]. Qed.

Lemma drop_app_S l a r : Strings.drop (String.length l + 1) (l +:+ String a r) = r.
Proof.
  induction l as [|b l IH]; [reflexivity|exact IH].
Qed.

Lemma String_length_app l r :
  String.length (l +:+ r) = (String.length l + String.length r)%nat.
Proof.
  induction l as [|a l IH]; [reflexivity|].
  rewrite append_cons. cbn [String.length Nat.add]. f_equal. exact IH.
Qed.

(** [SplitN(s, "@", 2)] on a string without ['@']: one piece, [s] itself. *)
Lemma SplitN_at_absent s :
  Strings.Contains s "@" = false -> Strings.SplitN s "@" 2 = [s].
Proof.
  intros H. apply Index_char_absent in H.
  unfold Strings.SplitN. cbn [Z.eqb Z.ltb Z.compare orb].
  destruct (Strings.len s + 1 <? 2) eqn:E.
  - apply Z.ltb_lt in E.
    replace (Strings.len s + 1 - 1) with 0 by (unfold Strings.len in *; lia).
    reflexivity.
  - change (Z.to_nat (2 - 1)) with 1%nat. cbn [Strings.genSplit_loop].
    rewrite H. reflexivity.
Qed.

(** [SplitN(s, "@", 2)] cuts at the first ['@']. *)
Lemma SplitN_at_first l r :
  Strings.Contains l "@" = false ->
  Strings.SplitN (l +:+ String "@" r) "@" 2 = [l; r].
Proof.
  intros H. unfold Strings.SplitN. cbn [Z.eqb Z.ltb Z.compare orb].
  destruct (Strings.len (l +:+ String "@" r) + 1 <? 2) eqn:E.
  - apply Z.ltb_lt in E. unfold Strings.len in E.
    rewrite String_length_app in E. cbn [String.length] in E. lia.
  - change (Z.to_nat (2 - 1)) with 1%nat. cbn [Strings.genSplit_loop].
    rewrite (Index_char_app _ _ _ H). unfold Strings.len.
    destruct (Z.of_nat (String.length l) <? 0) eqn:E'; [apply Z.ltb_lt in E'; lia|].
    rewrite Nat2Z.id. cbn [String.length].
    rewrite substring_app_l, drop_app_S. reflexivity.
Qed.

(** Every string either has no ['@'] or is cut in one way at its first
    ['@']. *)
Lemma first_at_cases s :
  Strings.Contains s "@" = false
  \/ exists l r, s = l +:+ String "@" r /\ Strings.Contains l "@" = false.
Proof.
  destruct (Strings.Contains s "@") eqn:E; [right|left; reflexivity].
  unfold Strings.Contains in E. apply Z.leb_le in E.
  destruct (Index_char_found _ _ E) as [Hs Hl].
  eexists _, _. split; [exact Hs|exact Hl].
Qed.

Lemma first_at_unique l1 r1 l2 r2 :
  l1 +:+ String "@" r1 = l2 +:+ String "@" r2 ->
  Strings.Contains l1 "@" = false -> Strings.Contains l2 "@" = false ->
  l1 = l2 /\ r1 = r2.
Proof.
  revert l2. induction l1 as [|a l1 IH]; intros [|b l2];
    rewrite ?append_nil_l, ?append_cons; intros Heq H1 H2.
  - injection Heq as ->. done.
  - injection Heq as <- _. rewrite Contains_char_cons, decide_True in H2 by done.
    discriminate.
  - injection Heq as -> _. rewrite Contains_char_cons, decide_True in H1 by done.
    discriminate.
  - injection Heq as -> Heq.
    rewrite Contains_char_cons in H1, H2.
    destruct (decide ("@"%char = b)); [discriminate|].
    destruct (IH _ Heq H1 H2) as [-> ->]. done.
Qed.

(** *** Lower-casing *)

Ltac each_byte c :=
  destruct c as [[|] [|] [|] [|] [|] [|] [|] [|]]; vm_compute; try reflexivity;
  try discriminate; try congruence.

Lemma toLowerByte_not_at c : c <> "@"%char -> Strings.toLowerByte c <> "@"%char.
Proof. each_byte c. Qed.

Lemma toLowerByte_not_upper c : Strings.isUpperByte (Strings.toLowerByte c) = false.
Proof. each_byte c. Qed.

Lemma toLowerByte_ascii c :
  (byte_val (Strings.toLowerByte c) <? RuneSelf) = (byte_val c <? RuneSelf).
Proof. each_byte c. Qed.

Lemma lowerBytes_nonempty s : Strings.lowerBytes s = "" -> s = "".
Proof. destruct s; [reflexivity|discriminate]. Qed.

Lemma lowerBytes_no_at s :
  Strings.Contains s "@" = false -> Strings.Contains (Strings.lowerBytes s) "@" = false.
Proof.
  induction s as [|a s IH]; [reflexivity|].
  cbn [Strings.lowerBytes]. rewrite !Contains_char_cons.
  destruct (decide ("@"%char = a)) as [|Hne]; [discriminate|].
  intros H. rewrite decide_False; [exact (IH H)|].
  intros E. symmetry in E. revert E. apply toLowerByte_not_at. congruence.
Qed.

Lemma lowerBytes_isASCII s :
  Strings.isASCII (Strings.lowerBytes s) = Strings.isASCII s.
Proof.
  induction s as [|a s IH]; [reflexivity|].
  cbn [Strings.lowerBytes Strings.isASCII]. rewrite toLowerByte_ascii, IH. reflexivity.
Qed.

Lemma lowerBytes_hasUpper s : Strings.hasUpper (Strings.lowerBytes s) = false.
Proof.
  induction s as [|a s IH]; [reflexivity|].
  cbn [Strings.lowerBytes Strings.hasUpper]. rewrite toLowerByte_not_upper, IH. reflexivity.
Qed.

Lemma lowerBytes_id s : Strings.hasUpper s = false -> Strings.lowerBytes s = s.
Proof.
  induction s as [|a s IH]; [reflexivity|].
  cbn [Strings.lowerBytes Strings.hasUpper]. intros H.
  apply orb_false_iff in H as [Ha Hs]. rewrite (IH Hs).
  unfold Strings.toLowerByte. rewrite Ha. reflexivity.
Qed.

Lemma lowerBytes_idem s :
  Strings.lowerBytes (Strings.lowerBytes s) = Strings.lowerBytes s.
Proof. apply lowerBytes_id, lowerBytes_hasUpper. Qed.

Section ToLowerFacts.
Context {U : Unicode} {L : UnicodeLaws U}.

Lemma ToLower_nonempty s : Strings.ToLower s = "" -> s = "".
Proof.
  unfold Strings.ToLower. destruct (Strings.isASCII s) eqn:E.
  - destruct (Strings.hasUpper s); [apply lowerBytes_nonempty|done].
  - intros H. by apply MapToLower_nonempty in H.
Qed.

Lemma ToLower_no_at s :
  Strings.Contains s "@" = false -> Strings.Contains (Strings.ToLower s) "@" = false.
Proof.
  unfold Strings.ToLower. destruct (Strings.isASCII s) eqn:E.
  - destruct (Strings.hasUpper s); [apply lowerBytes_no_at|done].
  - by apply MapToLower_no_at.
Qed.

Lemma ToLower_idem s : Strings.ToLower (Strings.ToLower s) = Strings.ToLower s.
Proof.
  unfold Strings.ToLower at 2 3. destruct (Strings.isASCII s) eqn:E.
  - destruct (Strings.hasUpper s) eqn:Eu.
    + unfold Strings.ToLower.
      rewrite lowerBytes_isASCII, E, lowerBytes_hasUpper. reflexivity.
    + unfold Strings.ToLower. rewrite E, Eu. reflexivity.
  - by apply MapToLower_lowered.
Qed.

End ToLowerFacts.

Lemma ToLower_empty `{U : Unicode} : Strings.ToLower "" = "".
Proof. reflexivity. Qed.

(** The table-free instance has the three properties. *)
#[global] Instance ASCIIOnly_laws : UnicodeLaws ASCIIOnly.
Proof.
  split; cbn [MapToLower ASCIIOnly].
  - intros s Hs E. apply lowerBytes_nonempty in E. by subst.
  - intros s _. apply lowerBytes_no_at.
  - intros s Hs. unfold Strings.ToLower.
    rewrite lowerBytes_isASCII, Hs. cbn [MapToLower ASCIIOnly].
    apply lowerBytes_idem.
Qed.

(** *** extractDomain on the two shapes of an address *)

Section ExtractDomainFacts.
Context `{U : Unicode}.

Lemma extractDomain_absent s :
  Strings.Contains s "@" = false -> extractDomain s = "".
Proof.
  intros H. unfold extractDomain. rewrite (SplitN_at_absent _ H). reflexivity.
Qed.

Lemma extractDomain_first_at l r :
  Strings.Contains l "@" = false ->
  extractDomain (l +:+ String "@" r) =
  if Strings.Contains r "@" then "" else Strings.ToLower r.
Proof.
  intros H. unfold extractDomain. rewrite (SplitN_at_first _ _ H).
  cbn [length nth Z.of_nat Pos.of_succ_nat Pos.succ Z.eqb Pos.eqb negb orb].
  reflexivity.
Qed.

End ExtractDomainFacts.

(** ** The aggregate of a list of domains *)

Lemma wrap64_small z : - 2 ^ 63 <= z < 2 ^ 63 -> wrap64 z = z.
Proof. intros H. unfold wrap64. rewrite Z.mod_small; lia. Qed.

Lemma wrap64_incr z : incr (wrap64 z) = wrap64 (z + 1).
Proof.
  unfold incr, wrap64.
  replace ((z + 2 ^ 63) mod 2 ^ 64 - 2 ^ 63 + 1 + 2 ^ 63)
    with ((z + 2 ^ 63) mod 2 ^ 64 + 1) by lia.
  rewrite Zplus_mod_idemp_l. f_equal. f_equal. lia.
Qed.

Lemma aggregate_snoc ds d :
  aggregate (ds ++ [d]) =
  (map_incr d (aggregate ds).1, incr (aggregate ds).2).
Proof. unfold aggregate. rewrite foldl_snoc. reflexivity. Qed.

Lemma aggregate_nil : aggregate [] = (∅, 0).
Proof. reflexivity. Qed.

(** The count of a domain in the aggregate map is the number of its
    occurrences, as Go's [int] holds it. *)
Lemma aggregate_lookup ds d :
  (aggregate ds).1 !! d =
  if decide (d ∈ ds)
  then Some (wrap64 (Z.of_nat (count_occ string_dec ds d)))
  else None.
Proof.
  induction ds as [|x ds IH] using rev_ind.
  - rewrite decide_False by apply not_elem_of_nil. apply lookup_empty.
  - rewrite aggregate_snoc. cbn [fst]. unfold map_incr.
    rewrite count_occ_app. cbn [count_occ].
    destruct (decide (x = d)) as [->|Hne].
    + rewrite lookup_insert_eq, IH.
      rewrite (decide_True (P := d ∈ ds ++ [d]))
        by (rewrite elem_of_app, list_elem_of_singleton; tauto).
      destruct (string_dec d d) as [_|]; [|done].
      f_equal. destruct (decide (d ∈ ds)) as [Hin|Hnin]; cbn [default from_option id].
      * rewrite wrap64_incr. f_equal. lia.
      * assert (count_occ string_dec ds d = 0%nat) as ->.
        { apply count_occ_not_In. by rewrite <- list_elem_of_In. }
        reflexivity.
    + rewrite lookup_insert_ne by done. rewrite IH.
      destruct (string_dec x d) as [|_]; [done|].
      rewrite Nat.add_0_r.
      destruct (decide (d ∈ ds)).
      * rewrite decide_True by (rewrite elem_of_app; tauto). reflexivity.
      * rewrite decide_False; [reflexivity|].
        rewrite elem_of_app, list_elem_of_singleton. intros [?|?]; congruence.
Qed.

Lemma aggregate_total ds : (aggregate ds).2 = wrap64 (Z.of_nat (length ds)).
Proof.
  induction ds as [|x ds IH] using rev_ind; [reflexivity|].
  rewrite aggregate_snoc. cbn [snd]. rewrite IH, wrap64_incr, length_app.
  f_equal. cbn [length]. lia.
Qed.

(** The aggregate does not depend on the order of the domains. *)
Lemma aggregate_Permutation ds ds' : ds ≡ₚ ds' -> aggregate ds = aggregate ds'.
Proof.
  intros Hp.
  rewrite (surjective_pairing (aggregate ds)), (surjective_pairing (aggregate ds')).
  f_equal.
  - apply map_eq. intros d. rewrite !aggregate_lookup.
    rewrite (Permutation_count_occ string_dec ds ds') in Hp. rewrite (Hp d).
    destruct (decide (d ∈ ds)) as [Hin|Hnin].
    + rewrite decide_True; [reflexivity|].
      apply list_elem_of_In, (count_occ_In string_dec). rewrite <- Hp.
      apply (count_occ_In string_dec), list_elem_of_In, Hin.
    + rewrite decide_False; [reflexivity|].
      intros Hin. apply Hnin.
      apply list_elem_of_In, (count_occ_In string_dec). rewrite Hp.
      apply (count_occ_In string_dec), list_elem_of_In, Hin.
  - rewrite !aggregate_total. f_equal. f_equal. by apply Permutation_length.
Qed.

Lemma aggregate_dom ds d : is_Some ((aggregate ds).1 !! d) <-> d ∈ ds.
Proof.
  rewrite aggregate_lookup. destruct (decide (d ∈ ds)); split; intros H; done.
Qed.

(** Below [2^63] domains no count wraps: every count is the number of
    occurrences, at least 1, and the total is the length of the list. *)
Lemma aggregate_count_exact ds d c :
  Z.of_nat (length ds) < 2 ^ 63 ->
  (aggregate ds).1 !! d = Some c ->
  c = Z.of_nat (count_occ string_dec ds d) /\ 1 <= c.
Proof.
  intros Hlen. rewrite aggregate_lookup.
  destruct (decide (d ∈ ds)) as [Hin|]; [|done].
  intros [= <-].
  pose proof (count_occ_bound string_dec d ds) as Hb.
  apply list_elem_of_In, (count_occ_In string_dec) in Hin.
  rewrite wrap64_small by lia. lia.
Qed.

Lemma aggregate_total_exact ds :
  Z.of_nat (length ds) < 2 ^ 63 -> (aggregate ds).2 = Z.of_nat (length ds).
Proof. intros H. rewrite aggregate_total. apply wrap64_small. lia. Qed.

(** *** The sum of the counts *)

Lemma sum_counts_app l1 l2 : sum_counts (l1 ++ l2) = sum_counts l1 + sum_counts l2.
Proof.
  unfold sum_counts.
  induction l1 as [|x l1 IH]; cbn [foldr app]; [reflexivity|].
  rewrite IH. lia.
Qed.

Lemma sum_counts_Permutation l1 l2 : l1 ≡ₚ l2 -> sum_counts l1 = sum_counts l2.
Proof.
  unfold sum_counts.
  induction 1 as [|x l1 l2 _ IH|x y l|l1 l2 l3 _ IH1 _ IH2]; cbn [foldr]; lia.
Qed.

Lemma sum_counts_map_incr (m : gmap string Z) d :
  default 0 (m !! d) + 1 < 2 ^ 63 -> 0 <= default 0 (m !! d) ->
  sum_counts (stat_of <$> map_to_list (map_incr d m))
  = sum_counts (stat_of <$> map_to_list m) + 1.
Proof.
  intros Hhi Hlo. unfold map_incr, incr. rewrite wrap64_small by lia.
  destruct (m !! d) as [c|] eqn:E; cbn [default] in *.
  - rewrite <- (insert_delete_eq m d (c + 1)).
    rewrite (sum_counts_Permutation _ _
               (fmap_Permutation stat_of _ _
                  (map_to_list_insert _ d (c + 1) (lookup_delete_eq m d)))).
    rewrite <- (sum_counts_Permutation _ _
                  (fmap_Permutation stat_of _ _ (map_to_list_delete _ _ _ E))).
    rewrite !fmap_cons. unfold sum_counts. cbn [foldr stat_of Count fst snd]. lia.
  - rewrite (sum_counts_Permutation _ _
               (fmap_Permutation stat_of _ _ (map_to_list_insert _ d (0 + 1) E))).
    rewrite !fmap_cons. unfold sum_counts. cbn [foldr stat_of Count fst snd]. lia.
Qed.

Lemma aggregate_sum_counts ds :
  Z.of_nat (length ds) < 2 ^ 63 ->
  sum_counts (stat_of <$> map_to_list (aggregate ds).1) = Z.of_nat (length ds).
Proof.
  induction ds as [|x ds IH] using rev_ind; intros Hlen.
  - cbn. rewrite map_to_list_empty. reflexivity.
  - rewrite length_app in *. cbn [length] in *.
    rewrite aggregate_snoc. cbn [fst].
    assert (Z.of_nat (length ds) < 2 ^ 63) as Hds by lia.
    pose proof (count_occ_bound string_dec x ds) as Hb.
    assert (0 <= default 0 ((aggregate ds).1 !! x) <= Z.of_nat (length ds)) as Hc.
    { destruct ((aggregate ds).1 !! x) as [c|] eqn:E; cbn [default from_option id]; [|lia].
      destruct (aggregate_count_exact _ _ _ Hds E). lia. }
    rewrite sum_counts_map_incr by lia. rewrite IH by lia. lia.
Qed.

(** ** The sorted report *)

Lemma ltb_leb a b : String.ltb b a = false <-> String.leb a b = true.
Proof.
  unfold String.ltb, String.leb. rewrite (String.compare_antisym a b).
  destruct (String.compare b a); cbn; split; congruence.
Qed.

Lemma compare_refl a : String.compare a a = Eq.
Proof.
  pose proof (String.compare_antisym a a) as H.
  destruct (String.compare a a); cbn in H; congruence.
Qed.

Lemma ltb_irrefl a : String.ltb a a = false.
Proof. unfold String.ltb. rewrite compare_refl. reflexivity. Qed.

Lemma ltb_spec a b : String.ltb a b = true <-> String.leb a b = true /\ a <> b.
Proof.
  unfold String.ltb, String.leb. split.
  - destruct (String.compare a b) eqn:E; try discriminate.
    intros _. split; [reflexivity|]. intros ->. rewrite compare_refl in E. discriminate.
  - intros [Hle Hne]. destruct (String.compare a b) eqn:E; try done.
    apply String.compare_eq_iff in E. done.
Qed.

Lemma in_order_less a b : in_order less a b <-> String.le (Name a) (Name b).
Proof.
  unfold in_order, less, String.le. rewrite ltb_leb.
  destruct (String.leb (Name a) (Name b)); cbn; split; try done.
Qed.

#[global] Instance in_order_less_trans : Transitive (in_order less).
Proof.
  intros a b c. rewrite !in_order_less. apply (@transitivity _ String.le _).
Qed.

#[global] Instance in_order_less_total : Total (in_order less).
Proof.
  intros a b. rewrite !in_order_less. apply (@total _ String.le _).
Qed.

Lemma in_order_less_antisym a b :
  in_order less a b -> in_order less b a -> Name a = Name b.
Proof. rewrite !in_order_less. apply (@anti_symm _ eq String.le _). Qed.

Lemma elem_of_stats (m : gmap string Z) x :
  x ∈ stat_of <$> map_to_list m <-> m !! Name x = Some (Count x).
Proof.
  rewrite list_elem_of_fmap. split.
  - intros [[d c] [-> Hin]]. by apply elem_of_map_to_list in Hin.
  - intros H. exists (Name x, Count x). split; [by destruct x|].
    by apply elem_of_map_to_list.
Qed.

Lemma NoDup_stat_names (m : gmap string Z) : NoDup (Name <$> (stat_of <$> map_to_list m)).
Proof.
  rewrite <- list_fmap_compose.
  replace (Name ∘ stat_of) with (@fst string Z) by reflexivity.
  apply NoDup_fst_map_to_list.
Qed.

Lemma createStats_Permutation m : createStats m ≡ₚ stat_of <$> map_to_list m.
Proof. apply merge_sort_Permutation. Qed.

Lemma createStats_Sorted m : Sorted (in_order less) (createStats m).
Proof. apply Sorted_merge_sort, _. Qed.

Lemma elem_of_createStats m x : x ∈ createStats m <-> m !! Name x = Some (Count x).
Proof. rewrite createStats_Permutation. apply elem_of_stats. Qed.

Lemma createStats_NoDup_names m : NoDup (Name <$> createStats m).
Proof. rewrite createStats_Permutation. apply NoDup_stat_names. Qed.

(** A list without two entries of one name that is sorted by [less] is
    strictly ascending. *)
Lemma Sorted_strict l :
  Sorted (in_order less) l -> NoDup (Name <$> l) ->
  StronglySorted (fun a b => less a b = true) l.
Proof.
  intros Hs. apply Sorted_StronglySorted in Hs; [|apply _].
  induction Hs as [|a l Hs IH Hall]; intros Hnd; [constructor|].
  rewrite fmap_cons in Hnd. apply NoDup_cons in Hnd as [Ha Hnd].
  constructor; [by apply IH|].
  rewrite Forall_forall in Hall |- *. intros b Hb.
  unfold less. apply ltb_spec. split.
  - specialize (Hall b Hb). apply in_order_less in Hall.
    unfold String.le in Hall. by destruct (String.leb (Name a) (Name b)).
  - intros E. apply Ha. rewrite E. by apply list_elem_of_fmap_2.
Qed.

(** The order in which [range] visits the map and the permutation that
    [sort.Slice] picks do not show in the result. *)
Lemma createStats_any_order_unique m l :
  createStats_any_order m l -> l = createStats m.
Proof.
  intros [entries l' He Hl Hs].
  assert (l' ≡ₚ stat_of <$> map_to_list m) as Hp by (by rewrite Hl, He).
  apply (Sorted_unique_strong (in_order less)); [|done|apply createStats_Sorted|].
  - intros x1 x2 H1 H2 H12 H21.
    rewrite Hp in H1. rewrite createStats_Permutation in H2.
    apply elem_of_stats in H1, H2.
    pose proof (in_order_less_antisym _ _ H12 H21) as E.
    rewrite E in H1. destruct x1, x2; cbn in *. congruence.
  - by rewrite createStats_Permutation.
Qed.

Lemma createStats_any_order_createStats m : createStats_any_order m (createStats m).
Proof.
  apply (createStats_intro m (map_to_list m)); [done| |apply createStats_Sorted].
  apply createStats_Permutation.
Qed.

(** ** The pipeline: what every schedule preserves *)

(** Proofs reason about these functions through their lemmas and never
    unfold them while simplifying. *)
Arguments wrap64 : simpl never.
Arguments incr : simpl never.
Arguments itoa : simpl never.
Arguments extractDomain : simpl never.
Arguments Strings.TrimSpace : simpl never.
Arguments Strings.ToLower : simpl never.
Arguments map_incr : simpl never.
Arguments aggregate : simpl never.

Lemma elem_of_insert_inv {A} (l : list A) i x y :
  x ∈ <[i:=y]> l -> x = y \/ x ∈ l.
Proof.
  intros [j Hj]%list_elem_of_lookup.
  apply list_lookup_insert_Some in Hj as [(-> & -> & _)|[_ Hj]]; [by left|right].
  by eapply list_elem_of_lookup_2.
Qed.

Lemma held_insert ws i w w' :
  ws !! i = Some w ->
  (<[i:=w']> ws ≫= worker_held) ++ worker_held w
  ≡ₚ (ws ≫= worker_held) ++ worker_held w'.
Proof.
  intros Hi. pose proof (lookup_lt_Some _ _ _ Hi) as Hlt.
  rewrite insert_take_drop by done.
  rewrite <- (take_drop_middle ws i w Hi) at 3.
  rewrite !bind_app, !bind_cons.
  generalize (take i ws ≫= worker_held) (drop (S i) ws ≫= worker_held).
  intros l1 l2. rewrite <- !app_assoc.
  apply Permutation_app_head.
  rewrite (Permutation_app_comm (worker_held w') (l2 ++ worker_held w)).
  rewrite (Permutation_app_comm (worker_held w) (l2 ++ worker_held w')).
  rewrite <- !app_assoc. apply Permutation_app_head, Permutation_app_comm.
Qed.

Lemma weight_insert ws i w w' :
  ws !! i = Some w ->
  (sum_list_with worker_weight (<[i:=w']> ws) + worker_weight w
   = sum_list_with worker_weight ws + worker_weight w')%nat.
Proof.
  intros Hi. pose proof (lookup_lt_Some _ _ _ Hi) as Hlt.
  rewrite insert_take_drop by done.
  rewrite <- (take_drop_middle ws i w Hi) at 3.
  rewrite !sum_list_with_app. cbn [sum_list_with]. lia.
Qed.

Lemma held_replicate_WRecv k : replicate k WRecv ≫= worker_held = [].
Proof. induction k as [|k IH]; [reflexivity|]. cbn. exact IH. Qed.

Lemma held_all_done ws :
  Forall (fun w => w = WDone) ws -> ws ≫= worker_held = [].
Proof.
  induction 1 as [|w ws -> _ IH]; [reflexivity|].
  rewrite bind_cons, IH. reflexivity.
Qed.

Lemma forallb_done ws :
  forallb (fun w => bool_decide (w = WDone)) ws = true
  <-> Forall (fun w => w = WDone) ws.
Proof.
  rewrite forallb_forall, Forall_forall.
  split; intros H w Hw.
  - apply list_elem_of_In in Hw. specialize (H w Hw). by apply bool_decide_eq_true in H.
  - apply bool_decide_eq_true, H, list_elem_of_In, Hw.
Qed.

Lemma Read_cons_error record text rd :
  Csv.Read ((record, Some text) :: rd) = (record, Some (ParseError text), rd).
Proof. reflexivity. Qed.

Ltac st_simpl :=
  cbn [csvreader lineNum readerPC emailChan workers domains domainMap
       totalCustomers aggPC mainPC logged set_emailChan set_reader
       log_Print set_workers set_domains set_aggregate set_aggPC
       set_mainPC close send buf closed reader_held app run
       Csv.Read fmap option_fmap option_map] in *.


Lemma not_all_done (ws : list WorkerPC) (i : nat) w :
  ws !! i = Some w -> w <> WDone -> ~ Forall (fun w => w = WDone) ws.
Proof. intros Hi Hw Hall. rewrite Forall_lookup in Hall. by apply Hall in Hi. Qed.

Lemma done_insert_inv (ws : list WorkerPC) (i : nat) w :
  WDone ∈ <[i:=w]> ws -> w <> WDone -> WDone ∈ ws.
Proof. intros [?|?]%elem_of_insert_inv ?; congruence. Qed.

Ltac cons_auto := split; st_simpl; try done; try naive_solver.
Ltac waited_contra Ei :=
  let Hm := fresh "Hm" in
  let Hall := fresh "Hall" in
  intros Hm;
  match goal with
  | C : _ -> _ /\ Forall _ _ |- _ =>
      destruct (C Hm) as [_ Hall];
      exfalso; refine (not_all_done _ _ _ Ei _ Hall); discriminate
  end.
Ltac cons_w := split; st_simpl; try done; try (by rewrite length_insert).

Lemma workers_cases (ws : list WorkerPC) :
  (exists i domain, ws !! i = Some (WSend domain))
  \/ (exists i, ws !! i = Some WRecv)
  \/ Forall (fun w => w = WDone) ws.
Proof.
  induction ws as [|w ws IH]; [by right; right|].
  destruct w as [|domain|].
  - right. left. by exists 0%nat.
  - left. by exists 0%nat, domain.
  - destruct IH as [(i & d & Hi)|[[i Hi]|Hall]].
    + left. by exists (S i), d.
    + right. left. by exists (S i).
    + right. right. by constructor.
Qed.

Section PipelineFacts.
Context `{U : Unicode}.
Variable numWorkers : Z.

Lemma consistent_start rd : consistent numWorkers (start rd numWorkers).
Proof.
  split; cbn; try done.
  - apply length_replicate.
  - intros H%elem_of_replicate_inv; done.
Qed.

Lemma consistent_step g s s' :
  consistent numWorkers s -> run numWorkers g s = Some s' -> consistent numWorkers s'.
Proof.
  destruct s as [rd ln rpc ec ws dc m t apc mpc lg].
  intros [C1 C2 C3 C4 C5 C6 C7 C8] H. st_simpl.
  destruct g as [|i| |]; st_simpl.
  - unfold csvReader in H; st_simpl.
    destruct rpc as [|email|].
    + destruct rd as [|[record [text|]] rd]; st_simpl.
      * simplify_eq. cons_auto.
      * simplify_eq. cons_auto.
      * destruct (Z.of_nat (length record) <=? EMAIL_IDX); simplify_eq; cons_auto.
    + destruct (can_send numWorkers ec); simplify_eq. cons_auto.
    + done.
  - unfold extractDomains in H; st_simpl.
    destruct (ws !! i) as [[|domain|]|] eqn:Ei; try done.
    + destruct ec as [[|email rest] cl]; st_simpl.
      * destruct cl; simplify_eq. cons_w. waited_contra Ei.
      * destruct (decide (extractDomain (Strings.TrimSpace email) = "")); simplify_eq.
        -- cons_w. intros Hw. by destruct (C4 Hw).
        -- cons_w; [|waited_contra Ei].
           intros Hw%done_insert_inv; [|done]. by destruct (C4 Hw).
    + destruct (can_send numWorkers dc); simplify_eq. cons_w; [|waited_contra Ei|].
      * intros Hw%done_insert_inv; [|done]. exact (C4 Hw).
      * intros Ha. destruct (C7 Ha) as [Hc _]. apply C5 in Hc. revert Hc.
        waited_contra Ei.
  - unfold aggregateDomains in H; st_simpl.
    destruct apc; try done.
    destruct dc as [[|domain rest] cl]; st_simpl.
    + destruct cl; simplify_eq. cons_auto.
    + simplify_eq. cons_auto.
  - unfold processCsv_wait in H; st_simpl.
    destruct mpc; try done.
    + destruct (bool_decide (rpc = RDone)) eqn:E1; cbn [andb] in H; [|done].
      destruct (forallb _ ws) eqn:E2; [|done]. simplify_eq.
      apply bool_decide_eq_true in E1. apply forallb_done in E2.
      cons_auto.
    + destruct apc; simplify_eq. cons_auto.
Qed.

Lemma accounted_start rd : accounted rd (start rd numWorkers).
Proof.
  exists []. split; [|reflexivity].
  unfold pending, start. st_simpl. cbn [make_chan buf].
  rewrite held_replicate_WRecv. reflexivity.
Qed.

Lemma emails_cons res rd :
  emails (res :: rd) =
  match email_of res with Some e => e :: emails rd | None => emails rd end.
Proof. reflexivity. Qed.

Lemma domains_of_cons email l :
  domains_of (email :: l) =
  match domain_of email with Some d => d :: domains_of l | None => domains_of l end.
Proof. reflexivity. Qed.

Lemma accounted_step rd0 g s s' :
  accounted rd0 s -> run numWorkers g s = Some s' -> accounted rd0 s'.
Proof.
  destruct s as [rd ln rpc ec ws dc m t apc mpc lg].
  intros (done & Hp & Ha) H. unfold pending in Hp. st_simpl.
  destruct g as [|i| |]; st_simpl.
  - unfold csvReader in H; st_simpl.
    destruct rpc as [|email|]; [| |done].
    + destruct rd as [|[record [text|]] rd]; st_simpl.
      * simplify_eq. exists done. split; [|done]. unfold pending. st_simpl. done.
      * simplify_eq. exists done. split; [|done]. unfold pending. st_simpl. done.
      * rewrite emails_cons in Hp. cbn [email_of] in Hp.
        destruct (Z.of_nat (length record) <=? EMAIL_IDX); simplify_eq;
          exists done; (split; [|done]); unfold pending; st_simpl; done.
    + destruct (can_send numWorkers ec); simplify_eq.
      exists done. split; [|done]. unfold pending. st_simpl.
      by rewrite <- app_assoc.
  - unfold extractDomains in H; st_simpl.
    destruct (ws !! i) as [[|domain|]|] eqn:Ei; try done.
    + destruct ec as [[|email rest] cl]; st_simpl.
      * destruct cl; simplify_eq. exists done. split; [|done].
        unfold pending. st_simpl. rewrite <- Hp.
        apply Permutation_app_head, Permutation_app_head.
        apply Permutation_app_tail.
        pose proof (held_insert ws i WRecv WDone Ei) as Hh.
        cbn [worker_held] in Hh. by rewrite !app_nil_r in Hh.
      * rewrite domains_of_cons in Hp. unfold domain_of in Hp.
        destruct (decide (extractDomain (Strings.TrimSpace email) = "")); simplify_eq.
        -- exists done. split; [|done]. unfold pending. st_simpl. done.
        -- exists done. split; [|done]. unfold pending. st_simpl. rewrite <- Hp.
           apply Permutation_app_head, Permutation_app_head.
           pose proof (held_insert ws i WRecv (WSend (extractDomain (Strings.TrimSpace email))) Ei) as Hh.
           cbn [worker_held] in Hh. rewrite app_nil_r in Hh. rewrite Hh.
           rewrite <- app_assoc. apply Permutation_app_head. done.
    + destruct (can_send numWorkers dc); simplify_eq.
      exists done. split; [|done]. unfold pending. st_simpl. rewrite <- Hp.
      apply Permutation_app_head. rewrite <- !app_assoc.
      apply Permutation_app_head. rewrite !app_assoc. apply Permutation_app_tail.
      pose proof (held_insert ws i (WSend domain) WRecv Ei) as Hh.
      cbn [worker_held] in Hh. rewrite app_nil_r in Hh. rewrite <- Hh.
      apply Permutation_app_comm.
  - unfold aggregateDomains in H; st_simpl.
    destruct apc; try done.
    destruct dc as [[|domain rest] cl]; st_simpl.
    + destruct cl; simplify_eq. exists done. split; [|done]. unfold pending. st_simpl. done.
    + simplify_eq. exists (done ++ [domain]). split.
      * unfold pending. st_simpl. rewrite <- Hp. rewrite <- app_assoc. done.
      * rewrite aggregate_snoc, Ha. reflexivity.
  - unfold processCsv_wait in H; st_simpl.
    destruct mpc; try done.
    + destruct (bool_decide (rpc = RDone) && forallb _ ws); simplify_eq.
      exists done. split; [|done]. unfold pending. st_simpl. done.
    + destruct apc; simplify_eq. exists done. split; [|done]. unfold pending. st_simpl. done.
Qed.

Lemma step_steps_left g s s' :
  run numWorkers g s = Some s' -> (steps_left s' < steps_left s)%nat.
Proof.
  destruct s as [rd ln rpc ec ws dc m t apc mpc lg].
  intros H. unfold steps_left. st_simpl.
  destruct g as [|i| |]; st_simpl.
  - unfold csvReader in H; st_simpl.
    destruct rpc as [|email|]; [| |done].
    + destruct rd as [|[record [text|]] rd]; st_simpl.
      * simplify_eq. st_simpl. cbn [reader_weight length]. lia.
      * simplify_eq. st_simpl. cbn [reader_weight length]. lia.
      * destruct (Z.of_nat (length record) <=? EMAIL_IDX); simplify_eq; st_simpl;
          cbn [reader_weight length]; lia.
    + destruct (can_send numWorkers ec); simplify_eq. st_simpl.
      rewrite length_app. cbn [reader_weight length]. lia.
  - unfold extractDomains in H; st_simpl.
    destruct (ws !! i) as [[|domain|]|] eqn:Ei; try done.
    + destruct ec as [[|email rest] cl]; st_simpl.
      * destruct cl; simplify_eq. st_simpl.
        pose proof (weight_insert ws i WRecv WDone Ei) as Hw.
        cbn [worker_weight length] in *. lia.
      * destruct (decide (extractDomain (Strings.TrimSpace email) = "")); simplify_eq; st_simpl.
        -- cbn [length]. lia.
        -- pose proof (weight_insert ws i WRecv (WSend (extractDomain (Strings.TrimSpace email))) Ei) as Hw.
           cbn [worker_weight length] in *. lia.
    + destruct (can_send numWorkers dc); simplify_eq. st_simpl.
      pose proof (weight_insert ws i (WSend domain) WRecv Ei) as Hw.
      rewrite length_app. cbn [worker_weight length] in *. lia.
  - unfold aggregateDomains in H; st_simpl.
    destruct apc; try done.
    destruct dc as [[|domain rest] cl]; st_simpl.
    + destruct cl; simplify_eq. st_simpl. cbn [agg_weight length]. lia.
    + simplify_eq. st_simpl. cbn [agg_weight length]. lia.
  - unfold processCsv_wait in H; st_simpl.
    destruct mpc; try done.
    + destruct (bool_decide (rpc = RDone) && forallb _ ws); simplify_eq.
      st_simpl. cbn [main_weight]. lia.
    + destruct apc; simplify_eq. st_simpl. cbn [main_weight]. lia.
Qed.

(** A state that has not returned is never stuck: there is no deadlock. *)
Lemma progress s :
  1 <= numWorkers -> consistent numWorkers s -> mainPC s <> MReturned ->
  exists g s', run numWorkers g s = Some s'.
Proof.
  destruct s as [rd ln rpc ec ws dc m t apc mpc lg].
  intros Hn [C1 C2 C3 C4 C5 C6 C7 C8] Hm. st_simpl.
  destruct dc as [[|domain dbuf] dcl]; st_simpl.
  2:{ (* a domain is waiting: the aggregator takes it *)
    exists G_aggregateDomains. unfold run, aggregateDomains. st_simpl.
    destruct apc; [eexists; reflexivity|]. by destruct (C7 eq_refl) as [_ [=]]. }
  destruct dcl.
  { (* domains is closed and empty *)
    destruct apc.
    - exists G_aggregateDomains. unfold run, aggregateDomains. st_simpl.
      eexists; reflexivity.
    - exists G_processCsv. unfold run, processCsv_wait. st_simpl.
      destruct mpc; [|eexists; reflexivity|done]. by destruct (proj1 C5 eq_refl). }
  assert (mpc = MWait) as ->.
  { destruct mpc; [done| |]; exfalso; apply diff_false_true, C5; discriminate. }
  destruct (workers_cases ws) as [(i & domain & Hi)|[[i Hi]|Hall]].
  - (* a worker holding a domain can send it *)
    exists (G_extractDomains i). unfold run, extractDomains. st_simpl. rewrite Hi.
    unfold can_send. st_simpl. cbn [length].
    destruct (Z.of_nat 0 <? numWorkers) eqn:E; [eexists; reflexivity|].
    apply Z.ltb_ge in E. lia.
  - destruct ec as [[|email rest] ecl]; st_simpl.
    + destruct ecl.
      * (* emailChan is closed and empty: the worker returns *)
        exists (G_extractDomains i). unfold run, extractDomains. st_simpl. rewrite Hi.
        eexists; reflexivity.
      * (* the reader is still at work *)
        exists G_csvReader. unfold run, csvReader. st_simpl.
        destruct rpc as [|email|].
        -- destruct rd as [|[record [text|]] rd]; st_simpl; try (eexists; reflexivity).
           destruct (Z.of_nat (length record) <=? EMAIL_IDX); eexists; reflexivity.
        -- unfold can_send. st_simpl. cbn [length].
           destruct (Z.of_nat 0 <? numWorkers) eqn:E; [eexists; reflexivity|].
           apply Z.ltb_ge in E. lia.
        -- exfalso. apply diff_false_true, C2. reflexivity.
    + (* an address is waiting: the worker takes it *)
      exists (G_extractDomains i). unfold run, extractDomains. st_simpl. rewrite Hi.
      destruct (decide (extractDomain (Strings.TrimSpace email) = "")); eexists; reflexivity.
  - (* every worker has returned: so has the reader, and wg.Wait() returns *)
    assert (WDone ∈ ws) as Hin.
    { destruct ws as [|w ws]; [cbn in C1; lia|].
      apply Forall_cons in Hall as [-> _]. left. }
    destruct (C4 Hin) as [Hc _]. apply C2 in Hc. subst rpc.
    exists G_processCsv. unfold run, processCsv_wait. st_simpl.
    rewrite bool_decide_eq_true_2 by done.
    rewrite (proj2 (forallb_done ws) Hall). eexists; reflexivity.
Qed.

Lemma reachable_invariants rd s :
  rtc (step numWorkers) (start rd numWorkers) s ->
  consistent numWorkers s /\ accounted rd s.
Proof.
  revert s. apply rtc_ind_r.
  - split; [apply consistent_start|apply accounted_start].
  - intros s s' _ [g Hg] [IHc IHa].
    split; [by eapply consistent_step|by eapply accounted_step].
Qed.

(** When [processCsv] has returned, nothing is left on the way. *)
Lemma returned_nothing_pending s :
  1 <= numWorkers -> consistent numWorkers s -> mainPC s = MReturned ->
  pending s = [].
Proof.
  destruct s as [rd ln rpc ec ws dc m t apc mpc lg].
  intros Hn [C1 C2 C3 C4 C5 C6 C7 C8] Hm. st_simpl. subst mpc.
  destruct (C7 (C8 eq_refl)) as [_ Hd].
  destruct (C6 ltac:(discriminate)) as [-> Hall].
  assert (WDone ∈ ws) as Hin.
  { destruct ws as [|w ws]; [cbn in C1; lia|].
    apply Forall_cons in Hall as [-> _]. left. }
  destruct (C4 Hin) as [_ He].
  unfold pending. st_simpl. rewrite Hd, He, (C3 eq_refl), (held_all_done _ Hall).
  reflexivity.
Qed.

(** Every run ends: a state is at most [steps_left] steps from a state
    where [processCsv] has returned, and some run gets there. *)
Lemma run_bounded k s s' :
  nsteps (step numWorkers) k s s' -> (k + steps_left s' <= steps_left s)%nat.
Proof.
  induction 1 as [|k s s1 s' [g Hg] _ IH]; [lia|].
  apply step_steps_left in Hg. lia.
Qed.

Lemma run_to_end s :
  1 <= numWorkers -> consistent numWorkers s ->
  exists s', rtc (step numWorkers) s s' /\ mainPC s' = MReturned.
Proof.
  intros Hn. remember (steps_left s) as k eqn:Hk. revert s Hk.
  induction k as [k IH] using lt_wf_ind. intros s -> Hc.
  destruct (decide (mainPC s = MReturned)) as [Hm|Hm].
  - exists s. by split.
  - destruct (progress s Hn Hc Hm) as (g & s1 & Hg).
    destruct (IH (steps_left s1) (step_steps_left _ _ _ Hg) s1 eq_refl) as (s' & Hs' & Hr).
    { by eapply consistent_step. }
    exists s'. split; [|done]. eapply rtc_l; [by exists g|done].
Qed.

(** What [processCsv] returns does not depend on the schedule. *)
Lemma processCsv_iff reader res :
  1 <= numWorkers ->
  processCsv reader numWorkers res <-> res = processCsv_result reader.
Proof.
  intros Hn. unfold processCsv_result. split.
  - intros [record err rd Hr|record rd s Hr Hs Hm].
    + rewrite Hr. reflexivity.
    + rewrite Hr. destruct (reachable_invariants _ _ Hs) as [Hc (done & Hp & Ha)].
      rewrite (returned_nothing_pending _ Hn Hc Hm), app_nil_r in Hp.
      rewrite <- (aggregate_Permutation _ _ Hp), Ha. reflexivity.
  - destruct (Csv.Read reader) as [[record [err|]] rd] eqn:Hr; intros ->.
    + by eapply processCsv_header.
    + destruct (run_to_end (start rd numWorkers) Hn (consistent_start rd))
        as (s & Hs & Hm).
      destruct (reachable_invariants _ _ Hs) as [Hc (done & Hp & Ha)].
      rewrite (returned_nothing_pending _ Hn Hc Hm), app_nil_r in Hp.
      rewrite <- (aggregate_Permutation _ _ Hp), Ha.
      by eapply processCsv_done.
Qed.

End PipelineFacts.
(** ** The pipeline as a whole *)

Section ProcessFileFacts.
Context `{U : Unicode}.

(** With at least one worker, [ProcessFile] returns one result, whatever the
    schedule, the order in which the map is ranged over and the permutation
    that the sort picks. *)
Lemma ProcessFile_iff fs NumCPU filePath res :
  1 <= NumCPU ->
  ProcessFile fs NumCPU filePath res <-> res = ProcessFile_result (fs filePath).
Proof.
  intros Hn. unfold ProcessFile_result. split.
  - intros [err Ho|file m t err Ho Hp|file m t stats Ho Hp Hs]; rewrite Ho.
    + reflexivity.
    + apply (processCsv_iff _ _ _ Hn) in Hp. by rewrite <- Hp.
    + apply (processCsv_iff _ _ _ Hn) in Hp. rewrite <- Hp.
      by rewrite (createStats_any_order_unique _ _ Hs).
  - intros ->. destruct (fs filePath) as [file|err] eqn:Ho.
    + destruct (processCsv_result file) as [[m t] [err|]] eqn:Hr.
      * eapply ProcessFile_csv; [done|]. apply (processCsv_iff _ _ _ Hn). by rewrite Hr.
      * eapply ProcessFile_ok; [done| |apply createStats_any_order_createStats].
        apply (processCsv_iff _ _ _ Hn). by rewrite Hr.
    + by apply ProcessFile_open.
Qed.

Lemma processCsv_result_rows header rows :
  processCsv_result ((header, None) :: rows) =
  ((aggregate (domains_of (emails rows))).1,
   (aggregate (domains_of (emails rows))).2, None).
Proof.
  unfold processCsv_result. cbn [Csv.Read fmap option_fmap option_map].
  by destruct (aggregate (domains_of (emails rows))).
Qed.

Lemma length_emails rd : (length (emails rd) <= length rd)%nat.
Proof.
  induction rd as [|res rd IH]; [done|].
  rewrite emails_cons. destruct (email_of res); cbn [length]; lia.
Qed.

Lemma length_domains_of l : (length (domains_of l) <= length l)%nat.
Proof.
  induction l as [|e l IH]; [done|].
  rewrite domains_of_cons. destruct (domain_of e); cbn [length]; lia.
Qed.

Lemma emails_Permutation rd rd' : rd ≡ₚ rd' -> emails rd ≡ₚ emails rd'.
Proof. intros H. unfold emails. by rewrite H. Qed.

Lemma domains_of_Permutation l l' : l ≡ₚ l' -> domains_of l ≡ₚ domains_of l'.
Proof. intros H. unfold domains_of. by rewrite H. Qed.

Lemma emails_app rd rd' : emails (rd ++ rd') = emails rd ++ emails rd'.
Proof. apply omap_app. Qed.

Lemma emails_of_rows rows l :
  email_of <$> rows = Some <$> l -> emails rows = l.
Proof.
  revert l. induction rows as [|res rows IH]; intros [|e l]; try done.
  rewrite !fmap_cons. intros [= He Hl]. rewrite emails_cons, He. f_equal. by apply IH.
Qed.

Lemma elem_of_domains_of d l :
  d ∈ domains_of l -> exists e, extractDomain (Strings.TrimSpace e) = d /\ d <> "".
Proof.
  intros (e & _ & He)%list_elem_of_omap. unfold domain_of in He.
  destruct (decide (extractDomain (Strings.TrimSpace e) = "")); [done|].
  injection He as <-. by exists e.
Qed.

End ProcessFileFacts.
(** ** More on the pipeline *)

Section MorePipeline.
Context `{U : Unicode}.
Variable numWorkers : Z.

Lemma within_capacity_step g s s' :
  within_capacity numWorkers s -> run numWorkers g s = Some s' ->
  within_capacity numWorkers s'.
Proof.
  destruct s as [rd ln rpc ec ws dc m t apc mpc lg].
  unfold within_capacity. intros [He Hd] H. st_simpl.
  destruct g as [|i| |]; st_simpl.
  - unfold csvReader in H; st_simpl.
    destruct rpc as [|email|]; [| |done].
    + destruct rd as [|[record [text|]] rd]; st_simpl; simplify_eq; st_simpl; try done.
      destruct (Z.of_nat (length record) <=? EMAIL_IDX); simplify_eq; st_simpl; done.
    + unfold can_send in H. destruct (Z.of_nat (length (buf ec)) <? numWorkers) eqn:E;
        simplify_eq. st_simpl. apply Z.ltb_lt in E. rewrite length_app. cbn [length].
      split; [lia|done].
  - unfold extractDomains in H; st_simpl.
    destruct (ws !! i) as [[|domain|]|] eqn:Ei; try done.
    + destruct ec as [[|email rest] cl]; st_simpl.
      * destruct cl; simplify_eq. st_simpl. done.
      * cbn [length] in He.
        destruct (decide (extractDomain (Strings.TrimSpace email) = ""));
          simplify_eq; st_simpl; (split; [lia|done]).
    + unfold can_send in H. destruct (Z.of_nat (length (buf dc)) <? numWorkers) eqn:E;
        simplify_eq. st_simpl. apply Z.ltb_lt in E. rewrite length_app. cbn [length].
      split; [done|lia].
  - unfold aggregateDomains in H; st_simpl.
    destruct apc; try done.
    destruct dc as [[|domain rest] cl]; st_simpl.
    + destruct cl; simplify_eq. st_simpl. done.
    + simplify_eq. st_simpl. cbn [length] in Hd. split; [done|lia].
  - unfold processCsv_wait in H; st_simpl.
    destruct mpc; try done.
    + destruct (bool_decide (rpc = RDone) && forallb _ ws); simplify_eq. st_simpl. done.
    + destruct apc; simplify_eq. st_simpl. done.
Qed.

Lemma within_capacity_reachable rd s :
  0 <= numWorkers ->
  rtc (step numWorkers) (start rd numWorkers) s -> within_capacity numWorkers s.
Proof.
  intros Hn. revert s. apply rtc_ind_r.
  - split; cbn; lia.
  - intros s s' _ [g Hg] IH. by eapply within_capacity_step.
Qed.

Lemma steps_left_start rd :
  steps_left (start rd numWorkers) = (5 * length rd + Z.to_nat numWorkers + 4)%nat.
Proof.
  unfold steps_left, start. st_simpl. cbn [make_chan buf length reader_weight agg_weight main_weight].
  assert (forall k, sum_list_with worker_weight (replicate k WRecv) = k) as ->.
  { induction k as [|k IH]; [done|]. cbn. by rewrite IH. }
  lia.
Qed.

End MorePipeline.
(** ** Domain extraction *)

(** C4. [extractDomain] lowers the part after the first ['@'] of
    ["user@Example.COM"], and returns the empty string for an address without
    ['@'], with a second ['@'], with nothing after the ['@'], and for the empty
    string -- whatever the Unicode tables are. *)
Theorem extractDomain_examples (U : Unicode) :
  extractDomain "user@Example.COM" = "example.com"
  /\ extractDomain "no-at-sign" = ""
  /\ extractDomain "a@@b.com" = ""
  /\ extractDomain "a@" = ""
  /\ extractDomain "" = "".
Proof. repeat split; reflexivity. Qed.

(** An address whose local part is empty has a domain all the same. *)
Lemma extractDomain_empty_local (U : Unicode) : extractDomain "@b.com" = "b.com".
Proof. reflexivity. Qed.

(** C1, as the specification states it, fails on ["@b.com"]: the local part
    is empty, so the address is not valid in the words of the specification,
    and [extractDomain] returns the domain ["b.com"], not the empty string. *)
Lemma extractDomain_empty_local_counterexample :
  extractDomain "@b.com" = "b.com"
  /\ extractDomain "@b.com" <> ""
  /\ ~ spec_valid_address "@b.com".
Proof.
  split; [reflexivity|]. split; [discriminate|].
  intros (l & r & Hs & Hl & Hne & _).
  destruct l as [|a l]; [done|].
  rewrite append_cons in Hs. injection Hs as <- _.
  rewrite Contains_char_cons, decide_True in Hl by done. discriminate.
Qed.

(** C1, amended. [extractDomain] returns a non-empty domain exactly when the
    string has an ['@'] and the part after the first ['@'] is non-empty and has
    no other ['@']; the part before it may be empty. *)
Theorem extractDomain_nonempty_iff (U : Unicode) (L : UnicodeLaws U) (s : string) :
  extractDomain s <> "" <->
  exists l r,
    s = l +:+ String "@" r
    /\ Strings.Contains l "@" = false
    /\ r <> ""
    /\ Strings.Contains r "@" = false.
Proof.
  split.
  - intros Hne. destruct (first_at_cases s) as [Habs|(l & r & -> & Hl)].
    + by rewrite extractDomain_absent in Hne.
    + rewrite (extractDomain_first_at _ _ Hl) in Hne.
      exists l, r. destruct (Strings.Contains r "@"); [done|].
      repeat split; try done. intros ->. by apply Hne.
  - intros (l & r & -> & Hl & Hr & Hat).
    rewrite (extractDomain_first_at _ _ Hl), Hat.
    intros E. by apply ToLower_nonempty in E.
Qed.

Lemma extractDomain_nonempty_iff_witness :
  extractDomain "user@Example.COM" <> "" <->
  exists l r,
    "user@Example.COM" = l +:+ String "@" r
    /\ Strings.Contains l "@" = false
    /\ r <> ""
    /\ Strings.Contains r "@" = false.
Proof. exact (extractDomain_nonempty_iff ASCIIOnly ASCIIOnly_laws "user@Example.COM"). Defined.

(** A domain that [extractDomain] returns has no ['@'] and is in lower case. *)
Lemma extractDomain_shape (U : Unicode) (L : UnicodeLaws U) (s : string) :
  extractDomain s <> "" ->
  Strings.Contains (extractDomain s) "@" = false
  /\ Strings.ToLower (extractDomain s) = extractDomain s.
Proof.
  intros Hne. destruct (first_at_cases s) as [Habs|(l & r & -> & Hl)].
  - by rewrite extractDomain_absent in Hne.
  - rewrite (extractDomain_first_at _ _ Hl) in *.
    destruct (Strings.Contains r "@") eqn:E; [done|].
    split; [by apply ToLower_no_at|apply ToLower_idem].
Qed.
(** ** The report of a file *)

Lemma five_domains (U : Unicode) :
  domains_of five_emails =
  ["github.io"; "github.io"; "github.io"; "acquirethisname.com"; "cnet.com"].
Proof. reflexivity. Qed.

Lemma five_aggregate :
  let ds := ["github.io"; "github.io"; "github.io"; "acquirethisname.com"; "cnet.com"] in
  createStats (aggregate ds).1 = DomainStats five_report
  /\ (aggregate ds).2 = TotalCount five_report.
Proof. vm_compute. split; reflexivity. Qed.

(** C2. A file with a header and exactly five rows, whose fields of index 2
    are the five addresses of the example, has the report of the example:
    a total of 5 and the three domains in ascending order with the counts
    1, 1 and 3 -- for every number of workers and every schedule. *)
Theorem ProcessFile_five_rows (U : Unicode) (fs : FileSystem) (NumCPU : Z)
    (filePath : string) (header : list string) (rows : Csv.Reader)
    (res : DomainsCount * option error) :
  1 <= NumCPU ->
  fs filePath = inl ((header, None) :: rows) ->
  email_of <$> rows = Some <$> five_emails ->
  ProcessFile fs NumCPU filePath res <-> res = (five_report, None).
Proof.
  intros Hn Ho Hrows. rewrite (ProcessFile_iff _ _ _ _ Hn), Ho.
  unfold ProcessFile_result. rewrite processCsv_result_rows.
  rewrite (emails_of_rows _ _ Hrows), five_domains.
  destruct five_aggregate as [-> ->]. reflexivity.
Qed.

(** The witness is the file of the test [TestProcessCsv_ValidCsv], read by
    four workers. *)
Lemma ProcessFile_five_rows_witness :
  Csv.NewReader five_rows_csv <> None
  /\ ProcessFile (one_file "customers.csv" five_rows_csv) 4 "customers.csv"
       (five_report, None).
Proof.
  split; [by vm_compute|].
  apply (ProcessFile_five_rows ASCIIOnly _ 4 "customers.csv"
           ["first_name"; "last_name"; "email"; "gender"; "ip_address"]
           (tail (default [] (Csv.NewReader five_rows_csv)))).
  - lia.
  - vm_compute. reflexivity.
  - vm_compute. reflexivity.
  - reflexivity.
Defined.

(** C3. When the header cannot be read, [ProcessFile] returns the zero
    [DomainsCount] and an error made of a fixed text followed by the text of
    the cause; this error is not [io.EOF], also when the cause is (an empty
    file). *)
Theorem ProcessFile_header_error (U : Unicode) (fs : FileSystem) (NumCPU : Z)
    (filePath : string) (file : Csv.Reader) (record : list string)
    (cause : error) (rd : Csv.Reader) (res : DomainsCount * option error) :
  fs filePath = inl file ->
  Csv.Read file = (record, Some cause, rd) ->
  (ProcessFile fs NumCPU filePath res <->
   res = (DomainsCount_zero,
          Some (Errorf ("error reading the header of csv: " +:+ Error cause))))
  /\ (ProcessFile fs NumCPU filePath res ->
      res.2 <> None /\ res.2 <> Some EOF
      /\ DomainStats res.1 = [] /\ TotalCount res.1 = 0).
Proof.
  intros Ho Hr.
  assert (ProcessFile fs NumCPU filePath res <->
          res = (DomainsCount_zero,
                 Some (Errorf ("error reading the header of csv: " +:+ Error cause))))
    as Hiff.
  { split.
    - intros [err Ho'|file' m t err Ho' Hp|file' m t stats Ho' Hp Hs].
      + congruence.
      + assert (file' = file) as -> by congruence.
        inversion Hp as [record' err' rd' Hr' E|]; subst.
        rewrite Hr in Hr'. by injection Hr' as _ <- _.
      + assert (file' = file) as -> by congruence.
        inversion Hp as [|record' rd' s Hr' _ _]; subst. congruence.
    - intros ->. eapply ProcessFile_csv; [done|]. by eapply processCsv_header. }
  split; [done|]. intros H. apply Hiff in H as ->. cbn [fst snd].
  repeat split; done.
Qed.

(** The witness is the empty file: reading its header fails with [io.EOF]. *)
Lemma ProcessFile_header_error_witness :
  Csv.NewReader "" = Some []
  /\ ProcessFile (one_file "empty.csv" "") 4 "empty.csv"
       (DomainsCount_zero, Some (Errorf "error reading the header of csv: EOF")).
Proof.
  split; [reflexivity|].
  apply (proj1 (ProcessFile_header_error ASCIIOnly (one_file "empty.csv" "") 4
                  "empty.csv" [] [] EOF [] _ eq_refl eq_refl)).
  reflexivity.
Defined.
Section ReportFacts.
Context `{U : Unicode}.

(** What a successful [ProcessFile] has read: a header without error, then
    the rows whose domains are aggregated. *)
Lemma ProcessFile_success fs NumCPU filePath file dc :
  1 <= NumCPU ->
  fs filePath = inl file ->
  ProcessFile fs NumCPU filePath (dc, None) ->
  exists header rows,
    file = (header, None) :: rows
    /\ DomainStats dc = createStats (aggregate (domains_of (emails rows))).1
    /\ TotalCount dc = (aggregate (domains_of (emails rows))).2.
Proof.
  intros Hn Ho H. apply (ProcessFile_iff _ _ _ _ Hn) in H. rewrite Ho in H.
  unfold ProcessFile_result in H.
  destruct file as [|[header [text|]] rows].
  - done.
  - done.
  - rewrite processCsv_result_rows in H. injection H as ->.
    by exists header, rows.
Qed.

Lemma domains_bound rows :
  Z.of_nat (length rows) < 2 ^ 63 ->
  Z.of_nat (length (domains_of (emails rows))) < 2 ^ 63.
Proof.
  intros H. eapply Z.le_lt_trans; [|exact H].
  apply Nat2Z.inj_le. etransitivity; [apply length_domains_of|apply length_emails].
Qed.

End ReportFacts.

(** C5. In the report of a successful run over a file of fewer than [2^63]
    rows, the total is the sum of the counts of the entries. *)
Theorem report_total_is_sum (U : Unicode) (fs : FileSystem) (NumCPU : Z)
    (filePath : string) (file : Csv.Reader) (dc : DomainsCount) :
  1 <= NumCPU ->
  fs filePath = inl file ->
  Z.of_nat (length file) < 2 ^ 63 ->
  ProcessFile fs NumCPU filePath (dc, None) ->
  TotalCount dc = sum_counts (DomainStats dc).
Proof.
  intros Hn Ho Hlen H.
  destruct (ProcessFile_success _ _ _ _ _ Hn Ho H) as (header & rows & -> & -> & ->).
  cbn [length] in Hlen.
  assert (Z.of_nat (length (domains_of (emails rows))) < 2 ^ 63) as Hb
    by (apply domains_bound; lia).
  rewrite (sum_counts_Permutation _ _ (createStats_Permutation _)).
  rewrite aggregate_sum_counts by done. by apply aggregate_total_exact.
Qed.

Lemma report_total_is_sum_witness :
  ProcessFile (one_file "customers.csv" five_rows_csv) 4 "customers.csv"
    (five_report, None)
  /\ TotalCount five_report = sum_counts (DomainStats five_report).
Proof.
  assert (ProcessFile (one_file "customers.csv" five_rows_csv) 4 "customers.csv"
            (five_report, None)) as H.
  { apply (ProcessFile_iff _ 4 _ _); [lia|]. vm_compute. reflexivity. }
  split; [exact H|].
  apply (report_total_is_sum ASCIIOnly (one_file "customers.csv" five_rows_csv) 4
           "customers.csv" (default [] (Csv.NewReader five_rows_csv)) five_report).
  - lia.
  - vm_compute. reflexivity.
  - vm_compute. reflexivity.
  - exact H.
Defined.
(** C8. [csvReader] sends the field of index 2 of a row, and a row that
    [Read] returns with an error, or with 2 fields or fewer, changes nothing
    in what [processCsv] returns: the rows before and after it are processed
    as if it were not there, and the run ends without error. *)
Theorem bad_row_skipped (U : Unicode) (numWorkers : Z) (header : list string)
    (pre post : Csv.Reader) (bad : Csv.ReadResult)
    (res : gmap string Z * Z * option error) :
  1 <= numWorkers ->
  bad.2 <> None \/ Z.of_nat (length bad.1) <= EMAIL_IDX ->
  (processCsv ((header, None) :: pre ++ bad :: post) numWorkers res
   <-> processCsv ((header, None) :: pre ++ post) numWorkers res)
  /\ (processCsv ((header, None) :: pre ++ bad :: post) numWorkers res ->
      res.2 = None)
  /\ (forall s record rd,
        readerPC s = RRead -> csvreader s = (record, None) :: rd ->
        EMAIL_IDX < Z.of_nat (length record) ->
        exists s',
          csvReader numWorkers s = Some s'
          /\ readerPC s' = RSend (nth 2 record "")
          /\ csvreader s' = rd).
Proof.
  intros Hn Hbad.
  assert (email_of bad = None) as Hnone.
  { destruct bad as [record [text|]]; [done|]. cbn [fst snd] in Hbad.
    destruct Hbad as [|Hlen]; [done|]. cbn [email_of].
    destruct (Z.of_nat (length record) <=? EMAIL_IDX) eqn:E; [done|].
    apply Z.leb_gt in E. lia. }
  assert (processCsv_result ((header, None) :: pre ++ bad :: post)
          = processCsv_result ((header, None) :: pre ++ post)) as Heq.
  { rewrite !processCsv_result_rows, !emails_app, emails_cons, Hnone. reflexivity. }
  split; [|split].
  - rewrite !(processCsv_iff _ _ _ Hn), Heq. reflexivity.
  - intros H. apply (processCsv_iff _ _ _ Hn) in H as ->.
    rewrite processCsv_result_rows. reflexivity.
  - intros s record rd Hpc Hrd Hlen. unfold csvReader. rewrite Hpc, Hrd.
    cbn [Csv.Read fmap option_fmap option_map].
    destruct (Z.of_nat (length record) <=? EMAIL_IDX) eqn:E.
    { apply Z.leb_le in E. lia. }
    eexists. split; [reflexivity|]. split; reflexivity.
Qed.

(** The witness: a file whose second row has two fields only. *)
Lemma bad_row_skipped_witness :
  processCsv [ (["name"; "id"; "email"], None);
               (["a"; "1"; "a@x.org"], None);
               (["b"; "2"], Some "record on line 3: wrong number of fields");
               (["c"; "3"; "c@x.org"], None) ] 2
    ({[ "x.org" := 2 ]}, 2, None).
Proof.
  apply (proj1 (bad_row_skipped ASCIIOnly 2 ["name"; "id"; "email"]
                  [(["a"; "1"; "a@x.org"], None)]
                  [(["c"; "3"; "c@x.org"], None)]
                  (["b"; "2"], Some "record on line 3: wrong number of fields")
                  ({[ "x.org" := 2 ]}, 2, None)
                  ltac:(lia) ltac:(by left))).
  apply processCsv_iff; [lia|]. vm_compute. reflexivity.
Defined.

(** C9. Two files with one header and the same rows in two orders, read
    with any two numbers of workers, have the same map and total and the
    same report; the entries of a report are in strictly ascending order of
    their names. *)
Theorem report_order_independent (U : Unicode) (fs fs' : FileSystem)
    (NumCPU NumCPU' : Z) (filePath filePath' : string) (header : list string)
    (rows rows' : Csv.Reader) :
  1 <= NumCPU -> 1 <= NumCPU' ->
  fs filePath = inl ((header, None) :: rows) ->
  fs' filePath' = inl ((header, None) :: rows') ->
  rows ≡ₚ rows' ->
  (forall res,
     processCsv ((header, None) :: rows) NumCPU res
     <-> processCsv ((header, None) :: rows') NumCPU' res)
  /\ (forall res,
        ProcessFile fs NumCPU filePath res <-> ProcessFile fs' NumCPU' filePath' res)
  /\ (forall res,
        ProcessFile fs NumCPU filePath res ->
        StronglySorted (fun a b => String.ltb (Name a) (Name b) = true)
          (DomainStats res.1)).
Proof.
  intros Hn Hn' Ho Ho' Hp.
  assert (processCsv_result ((header, None) :: rows)
          = processCsv_result ((header, None) :: rows')) as Heq.
  { rewrite !processCsv_result_rows.
    by rewrite (aggregate_Permutation _ _
                  (domains_of_Permutation _ _ (emails_Permutation _ _ Hp))). }
  split; [|split]; intros res.
  - by rewrite (processCsv_iff _ _ _ Hn), (processCsv_iff _ _ _ Hn'), Heq.
  - rewrite (ProcessFile_iff _ _ _ _ Hn), (ProcessFile_iff _ _ _ _ Hn'), Ho, Ho'.
    unfold ProcessFile_result. by rewrite Heq.
  - intros H. apply (ProcessFile_iff _ _ _ _ Hn) in H as ->. rewrite Ho.
    unfold ProcessFile_result. rewrite processCsv_result_rows. cbn [fst DomainStats].
    apply Sorted_strict; [apply createStats_Sorted|apply createStats_NoDup_names].
Qed.

(** The witness: two rows in the two orders, one worker against eight. *)
Lemma report_order_independent_witness :
  let r1 : Csv.ReadResult := (["a"; "1"; "a@x.org"], None) in
  let r2 : Csv.ReadResult := (["b"; "2"; "b@Y.org"], None) in
  let h : Csv.ReadResult := (["name"; "id"; "email"], None) in
  let rep := {| DomainStats := [ {| Name := "x.org"; Count := 1 |};
                                 {| Name := "y.org"; Count := 1 |} ];
                TotalCount := 2 |} in
  ProcessFile (fun _ => inl [h; r1; r2]) 1 "in.csv" (rep, None)
  <-> ProcessFile (fun _ => inl [h; r2; r1]) 8 "in.csv" (rep, None).
Proof.
  intros r1 r2 h rep.
  apply (proj1 (proj2 (report_order_independent ASCIIOnly
                         (fun _ => inl [h; r1; r2]) (fun _ => inl [h; r2; r1])
                         1 8 "in.csv" "in.csv" ["name"; "id"; "email"]
                         [r1; r2] [r2; r1]
                         ltac:(lia) ltac:(lia) eq_refl eq_refl
                         (perm_swap r2 r1 [])))).
Defined.

(** C10. A domain that [extractDomain] returns has no ['@'] and is its own
    lower-case form; so the names of the report of a successful run over a
    file of fewer than [2^63] rows are non-empty, have no ['@'] and are in
    lower case, and every count is at least 1. *)
Theorem domains_well_formed (U : Unicode) (L : UnicodeLaws U) :
  (forall s,
     extractDomain s <> "" ->
     Strings.Contains (extractDomain s) "@" = false
     /\ Strings.ToLower (extractDomain s) = extractDomain s)
  /\ (forall (fs : FileSystem) NumCPU filePath file dc st,
        1 <= NumCPU ->
        fs filePath = inl file ->
        Z.of_nat (length file) < 2 ^ 63 ->
        ProcessFile fs NumCPU filePath (dc, None) ->
        st ∈ DomainStats dc ->
        Name st <> ""
        /\ Strings.Contains (Name st) "@" = false
        /\ Strings.ToLower (Name st) = Name st
        /\ 1 <= Count st).
Proof.
  split; [intros s; apply extractDomain_shape, L|].
  intros fs NumCPU filePath file dc st Hn Ho Hlen H Hst.
  destruct (ProcessFile_success _ _ _ _ _ Hn Ho H) as (header & rows & -> & Hstats & _).
  cbn [length] in Hlen. rewrite Hstats in Hst.
  apply elem_of_createStats in Hst.
  assert (Z.of_nat (length (domains_of (emails rows))) < 2 ^ 63) as Hb
    by (apply domains_bound; lia).
  destruct (aggregate_count_exact _ _ _ Hb Hst) as [_ Hc].
  assert (Name st ∈ domains_of (emails rows)) as Hin.
  { apply aggregate_dom. by eexists. }
  destruct (elem_of_domains_of _ _ Hin) as (e & He & Hne).
  rewrite <- He in *.
  destruct (extractDomain_shape U L _ Hne) as [Hat Hlow]. done.
Qed.

Lemma domains_well_formed_witness :
  Strings.Contains (extractDomain "User@Example.COM") "@" = false
  /\ Strings.ToLower (extractDomain "User@Example.COM")
     = extractDomain "User@Example.COM".
Proof.
  apply (proj1 (domains_well_formed ASCIIOnly ASCIIOnly_laws) "User@Example.COM").
  discriminate.
Defined.
(** ** The sorted entries and the written file *)

(** C6. Whatever the order in which the map is ranged over and the
    permutation the sort picks, the entries are those of the map, one for each
    key with the count of the key, in strictly ascending order of the names
    for the byte-wise comparison of strings. *)
Theorem createStats_entries_sorted (domainMap : gmap string Z)
    (domainStats : list DomainStat) :
  createStats_any_order domainMap domainStats ->
  (forall st, st ∈ domainStats <-> domainMap !! Name st = Some (Count st))
  /\ NoDup (Name <$> domainStats)
  /\ length domainStats = size domainMap
  /\ StronglySorted (fun a b => String.ltb (Name a) (Name b) = true) domainStats.
Proof.
  intros ->%createStats_any_order_unique. repeat split.
  - by apply elem_of_createStats.
  - by apply elem_of_createStats.
  - apply createStats_NoDup_names.
  - rewrite (Permutation_length (createStats_Permutation domainMap)).
    rewrite length_fmap. apply length_map_to_list.
  - apply Sorted_strict; [apply createStats_Sorted|apply createStats_NoDup_names].
Qed.

Lemma createStats_entries_sorted_witness :
  let m : gmap string Z := {[ "github.io" := 3; "cnet.com" := 1 ]} in
  let l := [ {| Name := "cnet.com"; Count := 1 |};
             {| Name := "github.io"; Count := 3 |} ] in
  createStats_any_order m l
  /\ StronglySorted (fun a b => String.ltb (Name a) (Name b) = true) l.
Proof.
  intros m l.
  assert (createStats_any_order m l) as H.
  { replace l with (createStats m) by (vm_compute; reflexivity).
    apply createStats_any_order_createStats. }
  split; [exact H|]. apply (createStats_entries_sorted m l H).
Defined.

Lemma append_assoc (a b c : string) : (a +:+ b) +:+ c = a +:+ (b +:+ c).
Proof.
  induction a as [|x a IH]; [reflexivity|].
  rewrite !append_cons. by rewrite IH.
Qed.

Lemma append_nil_r (a : string) : a +:+ "" = a.
Proof. induction a as [|x a IH]; [reflexivity|]. rewrite append_cons. by rewrite IH. Qed.

Lemma write_lines (writer : Writer) (l : list DomainStat) :
  foldl (fun writer domainStat =>
           WriteString writer (OUTPUT_LINE_FORMAT (Name domainStat) (Count domainStat)))
        writer l
  = writer +:+ report_lines l.
Proof.
  revert writer. induction l as [|st l IH]; intros writer; cbn [foldl report_lines foldr].
  - by rewrite append_nil_r.
  - rewrite IH. unfold WriteString, OUTPUT_LINE_FORMAT.
    by rewrite !append_assoc.
Qed.

(** C7. When the file can be opened, [writeFile] returns no error and
    leaves at the path exactly the text of the report -- the line of the total
    and a line for each entry in the order of the report -- whatever was there
    before; everything else is unchanged.  For a report without entries and
    with the total 0, this text is the one line of the total. *)
Theorem writeFile_content (domainsCount : DomainsCount) (filePath : string)
    (w : World) :
  (forall text, disk w !! filePath <> Some (Denied text)) ->
  writeFile domainsCount filePath w
  = ({| disk := <[filePath := File (report_text domainsCount)]> (disk w);
        stdout := stdout w; printed := printed w |}, None)
  /\ (DomainStats domainsCount = [] -> TotalCount domainsCount = 0 ->
      report_text domainsCount = "Total number of customers: 0" +:+ nl).
Proof.
  intros Hok. split.
  2: { intros Hs Ht. unfold report_text. rewrite Hs, Ht. reflexivity. }
  unfold writeFile, os_OpenFile.
  destruct (disk w !! filePath) as [[content|text]|] eqn:E.
  3: { clear Hok. unfold Flush. cbn [disk stdout printed].
       rewrite lookup_insert_eq, insert_insert_eq.
       rewrite write_lines. unfold WriteString, report_text.
       by rewrite !append_nil_l, !append_assoc. }
  - unfold Flush. cbn [disk stdout printed].
    rewrite lookup_insert_eq, insert_insert_eq.
    rewrite write_lines. unfold WriteString, report_text.
    by rewrite !append_nil_l, !append_assoc.
  - by destruct (Hok text).
Qed.

(** The witness is the empty report, written over an older file: the file
    holds the line of the total and nothing else. *)
Lemma writeFile_content_witness :
  writeFile DomainsCount_zero "out.txt"
    {| disk := {[ "out.txt" := File "old" ]}; stdout := ""; printed := [] |}
  = ({| disk := {[ "out.txt" := File ("Total number of customers: 0" +:+ nl) ]};
        stdout := ""; printed := [] |}, None).
Proof.
  rewrite (proj1 (writeFile_content DomainsCount_zero "out.txt"
             {| disk := {[ "out.txt" := File "old" ]}; stdout := ""; printed := [] |}
             ltac:(intros text; cbn [disk]; rewrite lookup_singleton_eq; discriminate))).
  cbn [disk stdout printed]. rewrite insert_singleton_eq. reflexivity.
Defined.
(** ** Further properties of the pipeline *)

Lemma run_schedule_nsteps `{U : Unicode} cap gs s s' :
  run_schedule cap gs s = Some s' -> nsteps (step cap) (length gs) s s'.
Proof.
  revert s. induction gs as [|g gs IH]; intros s; cbn [run_schedule length].
  - intros [= ->]. constructor.
  - destruct (run cap g s) as [s1|] eqn:E; [|done].
    intros H. eapply nsteps_l; [by exists g|by apply IH].
Qed.

(** X1. With at least one worker, a run of the goroutines of [processCsv]
    over [rd] has at most [5 * len(rd) + numWorkers + 4] steps; as long as
    [processCsv] has not returned some goroutine can take a step (no
    deadlock), and once it has returned no goroutine is left that can (none
    leaks). *)
Theorem pipeline_terminates (U : Unicode) (numWorkers : Z) (rd : Csv.Reader)
    (k : nat) (s : State) :
  1 <= numWorkers ->
  nsteps (step numWorkers) k (start rd numWorkers) s ->
  (k <= 5 * length rd + Z.to_nat numWorkers + 4)%nat
  /\ (mainPC s <> MReturned -> exists g s', run numWorkers g s = Some s')
  /\ (mainPC s = MReturned -> forall g, run numWorkers g s = None).
Proof.
  intros Hn Hk.
  pose proof (run_bounded _ _ _ _ Hk) as Hb. rewrite steps_left_start in Hb.
  destruct (reachable_invariants numWorkers rd s (rtc_nsteps_2 _ _ _ Hk)) as [Hc _].
  split; [lia|]. split; [by apply progress|].
  intros Hm g. destruct Hc as [C1 C2 C3 C4 C5 C6 C7 C8].
  destruct (C6 ltac:(by rewrite Hm)) as [Hr Hall].
  pose proof (C8 Hm) as Ha.
  destruct g as [|i| |]; unfold run.
  - unfold csvReader. by rewrite Hr.
  - unfold extractDomains. destruct (workers s !! i) as [w|] eqn:Ei; [|done].
    rewrite Forall_lookup in Hall. by rewrite (Hall _ _ Ei).
  - unfold aggregateDomains. by rewrite Ha.
  - unfold processCsv_wait. by rewrite Hm.
Qed.

(** The witness runs [demo_schedule] to the return of [processCsv]. *)
Lemma pipeline_terminates_witness :
  (15 <= 5 * 3 + Z.to_nat 2 + 4)%nat
  /\ forall g,
       run 2 g (default (start demo_reader 2)
                  (run_schedule 2 demo_schedule (start demo_reader 2))) = None.
Proof.
  destruct (pipeline_terminates ASCIIOnly 2 demo_reader 15
              (default (start demo_reader 2)
                 (run_schedule 2 demo_schedule (start demo_reader 2))))
    as (Hk & _ & Hend).
  - lia.
  - apply (run_schedule_nsteps 2 demo_schedule). vm_compute. reflexivity.
  - split; [exact Hk|]. apply Hend. vm_compute. reflexivity.
Defined.

(** X2. In every state that a run reaches, each channel holds at most
    [numWorkers] strings; [csvReader] never holds an address to send when
    [emailChan] is closed, and no worker holds a domain to send when [domains]
    is closed (a send on a closed channel would panic); [emailChan] is closed
    only once [csvReader] is done, and [domains] only once every worker is. *)
Theorem channels_used_safely (U : Unicode) (numWorkers : Z) (rd : Csv.Reader)
    (s : State) :
  0 <= numWorkers ->
  rtc (step numWorkers) (start rd numWorkers) s ->
  within_capacity numWorkers s
  /\ (forall email, readerPC s = RSend email -> closed (emailChan s) = false)
  /\ (forall i domain,
        workers s !! i = Some (WSend domain) -> closed (domains s) = false)
  /\ (closed (emailChan s) = true -> readerPC s = RDone)
  /\ (closed (domains s) = true ->
      readerPC s = RDone /\ Forall (fun w => w = WDone) (workers s)).
Proof.
  intros Hn Hs.
  destruct (reachable_invariants numWorkers rd s Hs) as [[C1 C2 C3 C4 C5 C6 C7 C8] _].
  split; [by eapply within_capacity_reachable|].
  split; [|split; [|split]].
  - intros email Hr. apply not_true_is_false. intros E.
    apply C2 in E. congruence.
  - intros i domain Hi. apply not_true_is_false. intros E.
    apply C5, C6 in E as [_ Hall]. rewrite Forall_lookup in Hall.
    by apply Hall in Hi.
  - apply C2.
  - intros E. by apply C6, C5.
Qed.

Lemma channels_used_safely_witness :
  within_capacity 2
    (default (start demo_reader 2)
       (run_schedule 2 (take 5 demo_schedule) (start demo_reader 2))).
Proof.
  apply (channels_used_safely ASCIIOnly 2 demo_reader).
  - lia.
  - eapply rtc_nsteps_2. apply (run_schedule_nsteps 2 (take 5 demo_schedule)).
    vm_compute. reflexivity.
Defined.

(** X3. In every state that a run over fewer than [2^63] rows reaches, also
    in the middle of the run, the running total is the sum of the counts of
    the map and lies between 0 and the number of rows, every count is at least
    1, and every key is the non-empty domain of some row. *)
Theorem running_total_is_sum (U : Unicode) (numWorkers : Z) (rd : Csv.Reader)
    (s : State) :
  Z.of_nat (length rd) < 2 ^ 63 ->
  rtc (step numWorkers) (start rd numWorkers) s ->
  totalCustomers s = sum_counts (stat_of <$> map_to_list (domainMap s))
  /\ 0 <= totalCustomers s <= Z.of_nat (length rd)
  /\ (forall domain count,
        domainMap s !! domain = Some count ->
        1 <= count /\ domain <> "" /\ domain ∈ domains_of (emails rd)).
Proof.
  intros Hlen Hs.
  destruct (reachable_invariants numWorkers rd s Hs) as [_ (done & Hp & Ha)].
  assert (m_eq : domainMap s = (aggregate done).1) by by rewrite Ha.
  assert (t_eq : totalCustomers s = (aggregate done).2) by by rewrite Ha.
  assert (length done <= length (domains_of (emails rd)))%nat as Hle.
  { rewrite <- (Permutation_length Hp), length_app. lia. }
  pose proof (domains_bound rd Hlen) as Hb.
  assert (Z.of_nat (length done) < 2 ^ 63) as Hd by lia.
  rewrite m_eq, t_eq. split; [|split].
  - rewrite aggregate_sum_counts by done. by apply aggregate_total_exact.
  - rewrite aggregate_total_exact by done.
    split; [lia|]. apply Nat2Z.inj_le. etransitivity; [exact Hle|].
    etransitivity; [apply length_domains_of|apply length_emails].
  - intros domain count Hl.
    destruct (aggregate_count_exact _ _ _ Hd Hl) as [_ Hc].
    assert (domain ∈ domains_of (emails rd)) as Hin.
    { rewrite <- Hp. apply elem_of_app. left. apply aggregate_dom. by eexists. }
    split; [done|]. split; [|done].
    by destruct (elem_of_domains_of _ _ Hin) as (e & _ & Hne).
Qed.

Lemma running_total_is_sum_witness :
  let s := default (start demo_reader 2)
             (run_schedule 2 (take 8 demo_schedule) (start demo_reader 2)) in
  totalCustomers s = 1
  /\ totalCustomers s = sum_counts (stat_of <$> map_to_list (domainMap s)).
Proof.
  intros s. split; [by vm_compute|].
  apply (running_total_is_sum ASCIIOnly 2 demo_reader s).
  - by vm_compute.
  - eapply rtc_nsteps_2. apply (run_schedule_nsteps 2 (take 8 demo_schedule)).
    vm_compute. reflexivity.
Defined.

(** X4. What [processCsv] returns for a file of fewer than [2^63] rows
    after the header: no error, as total the number of rows whose field of
    index 2 has a domain, and for each domain the number of these rows with
    that domain (a domain of no row is not a key). *)
Theorem processCsv_counts (U : Unicode) (numWorkers : Z) (header : list string)
    (rows : Csv.Reader) (domainMap : gmap string Z) (totalCustomers : Z)
    (err : option error) :
  1 <= numWorkers ->
  Z.of_nat (length rows) < 2 ^ 63 ->
  processCsv ((header, None) :: rows) numWorkers (domainMap, totalCustomers, err) ->
  err = None
  /\ totalCustomers = Z.of_nat (length (domains_of (emails rows)))
  /\ (forall domain,
        domainMap !! domain =
        if decide (domain ∈ domains_of (emails rows))
        then Some (Z.of_nat (count_occ string_dec (domains_of (emails rows)) domain))
        else None).
Proof.
  intros Hn Hlen H. apply (processCsv_iff _ _ _ Hn) in H.
  rewrite processCsv_result_rows in H. injection H as -> -> ->.
  pose proof (domains_bound rows Hlen) as Hb.
  split; [done|]. split; [by apply aggregate_total_exact|].
  intros domain. rewrite aggregate_lookup.
  destruct (decide (domain ∈ domains_of (emails rows))); [|done].
  f_equal. apply wrap64_small.
  pose proof (count_occ_bound string_dec domain (domains_of (emails rows))). lia.
Qed.

Lemma processCsv_counts_witness :
  processCsv ((["first"; "last"; "email"], None) :: demo_reader) 2
    ({[ "example.org" := 1 ]}, 1, None)
  /\ (1 : Z) = Z.of_nat (length (domains_of (emails demo_reader))).
Proof.
  assert (processCsv ((["first"; "last"; "email"], None) :: demo_reader) 2
            ({[ "example.org" := 1 ]}, 1, None)) as H.
  { apply processCsv_iff; [lia|]. vm_compute. reflexivity. }
  split; [exact H|].
  apply (processCsv_counts ASCIIOnly 2 ["first"; "last"; "email"] demo_reader
           {[ "example.org" := 1 ]} 1 None ltac:(lia) ltac:(by vm_compute) H).
Defined.
(** ** Further properties of the output *)

Lemma print_lines (out : string) (l : list DomainStat) :
  foldl (fun out domainStat =>
           out +:+ OUTPUT_LINE_FORMAT (Name domainStat) (Count domainStat))
        out l
  = out +:+ report_lines l.
Proof. exact (write_lines out l). Qed.

Lemma writeStdOut_text (domainsCount : DomainsCount) (w : World) :
  writeStdOut domainsCount w
  = ({| disk := disk w;
        stdout := stdout w +:+ report_text domainsCount;
        printed := printed w |}, None).
Proof.
  unfold writeStdOut. rewrite print_lines. unfold report_text.
  by rewrite !append_assoc.
Qed.

(** X5. [writeStdOut] appends the text of the report to the standard output
    -- the same text that [writeFile] leaves in a file -- and returns no
    error; it does not touch the disk. *)
Theorem writeStdOut_appends (domainsCount : DomainsCount) (w : World) :
  writeStdOut domainsCount w
  = ({| disk := disk w;
        stdout := stdout w +:+ report_text domainsCount;
        printed := printed w |}, None).
Proof. apply writeStdOut_text. Qed.

(** X6. [WriteOutput] with a nil or empty path writes to the standard
    output and leaves the disk as it is; with another path it leaves the
    standard output and every other path of the disk as they are. *)
Theorem WriteOutput_frame (domainsCount : DomainsCount)
    (filePath : option string) (w : World) :
  (filePath = None \/ filePath = Some "" ->
   WriteOutput domainsCount filePath w = writeStdOut domainsCount w
   /\ disk (WriteOutput domainsCount filePath w).1 = disk w
   /\ (WriteOutput domainsCount filePath w).2 = None)
  /\ (forall path,
        filePath = Some path -> path <> "" ->
        WriteOutput domainsCount filePath w = writeFile domainsCount path w
        /\ stdout (WriteOutput domainsCount filePath w).1 = stdout w
        /\ forall other,
             other <> path ->
             disk (WriteOutput domainsCount filePath w).1 !! other = disk w !! other).
Proof.
  split.
  - intros [->| ->]; cbn [WriteOutput]; rewrite ?decide_True by done;
      rewrite writeStdOut_text; done.
  - intros path -> Hne. cbn [WriteOutput]. rewrite decide_False by done.
    split; [done|].
    unfold writeFile, os_OpenFile.
    destruct (disk w !! path) as [[content|text]|] eqn:E; cbn [fst snd stdout disk].
    + unfold Flush. cbn [disk stdout printed]. rewrite lookup_insert_eq.
      cbn [disk stdout]. split; [done|]. intros other Ho.
      by rewrite !lookup_insert_ne.
    + done.
    + unfold Flush. cbn [disk stdout printed]. rewrite lookup_insert_eq.
      cbn [disk stdout]. split; [done|]. intros other Ho.
      by rewrite !lookup_insert_ne.
Qed.

(** X7. When the path cannot be opened, [writeFile] returns the error of
    [os.OpenFile] as it is, prints one line, and leaves the disk and the
    standard output as they are. *)
Theorem writeFile_denied (domainsCount : DomainsCount) (filePath text : string)
    (w : World) :
  disk w !! filePath = Some (Denied text) ->
  writeFile domainsCount filePath w
  = ({| disk := disk w; stdout := stdout w;
        printed := printed w ++ ["Error opening file: " +:+ text] |},
     Some (PathError text)).
Proof. intros H. unfold writeFile, os_OpenFile. by rewrite H. Qed.

Lemma writeFile_denied_witness :
  writeFile five_report "/out"
    {| disk := {[ "/out" := Denied "open /out: is a directory" ]};
       stdout := ""; printed := [] |}
  = ({| disk := {[ "/out" := Denied "open /out: is a directory" ]};
        stdout := "";
        printed := ["Error opening file: open /out: is a directory"] |},
     Some (PathError "open /out: is a directory")).
Proof.
  rewrite (writeFile_denied five_report "/out" "open /out: is a directory"
             {| disk := {[ "/out" := Denied "open /out: is a directory" ]};
                stdout := ""; printed := [] |}
             (lookup_singleton_eq _ _)).
  reflexivity.
Defined.

Lemma writeFile_file_text (domainsCount : DomainsCount) (filePath : string)
    (w : World) :
  (forall text, disk w !! filePath <> Some (Denied text)) ->
  writeFile domainsCount filePath w
  = ({| disk := <[filePath := File (report_text domainsCount)]> (disk w);
        stdout := stdout w; printed := printed w |}, None).
Proof.
  intros Hok. unfold writeFile, os_OpenFile.
  destruct (disk w !! filePath) as [[content|text]|] eqn:E;
    [|by destruct (Hok text)|];
    unfold Flush; cbn [disk stdout printed];
    rewrite lookup_insert_eq, insert_insert_eq, write_lines;
    unfold WriteString, report_text;
    by rewrite !append_nil_l, !append_assoc.
Qed.

(** X8. [writeFile] truncates: after two reports are written to one path
    the world is the one that the second report alone would have left. *)
Theorem writeFile_overwrites (first second : DomainsCount) (filePath : string)
    (w : World) :
  (forall text, disk w !! filePath <> Some (Denied text)) ->
  writeFile second filePath (writeFile first filePath w).1
  = writeFile second filePath w.
Proof.
  intros Hok.
  rewrite (writeFile_file_text first filePath w Hok). cbn [fst].
  rewrite (writeFile_file_text second filePath w Hok).
  rewrite writeFile_file_text.
  - cbn [disk stdout printed]. by rewrite insert_insert_eq.
  - intros text. cbn [disk]. by rewrite lookup_insert_eq.
Qed.

Lemma writeFile_overwrites_witness :
  writeFile DomainsCount_zero "out.txt" (writeFile five_report "out.txt" empty_world).1
  = writeFile DomainsCount_zero "out.txt" empty_world.
Proof.
  apply (writeFile_overwrites five_report DomainsCount_zero "out.txt" empty_world).
  intros text. cbn [disk empty_world]. by rewrite lookup_empty.
Defined.

Lemma WriteOutput_frame_witness :
  disk (WriteOutput five_report (Some "") empty_world).1 = disk empty_world
  /\ stdout (WriteOutput five_report (Some "out.txt") empty_world).1
     = stdout empty_world.
Proof.
  split.
  - apply (proj1 (WriteOutput_frame five_report (Some "") empty_world)). by right.
  - apply (proj2 (WriteOutput_frame five_report (Some "out.txt") empty_world)
             "out.txt" eq_refl). discriminate.
Defined.

(** ** Further properties of [ProcessFile] and of the command *)

(** X9. [ProcessFile] returns the error of [os.Open] as it is, and whenever
    it returns an error the [DomainsCount] is the zero value: no part of a
    report comes with an error. *)
Theorem ProcessFile_error_no_data (U : Unicode) (fs : FileSystem) (NumCPU : Z)
    (filePath : string) (res : DomainsCount * option error) :
  ProcessFile fs NumCPU filePath res ->
  (res.2 <> None -> res.1 = DomainsCount_zero)
  /\ (forall err, fs filePath = inr err -> res = (DomainsCount_zero, Some err)).
Proof.
  intros [err Ho|file m t err Ho Hp|file m t stats Ho Hp Hs]; cbn [fst snd].
  - split; [done|]. intros err' Ho'. congruence.
  - split; [done|]. intros err' Ho'. congruence.
  - split; [done|]. intros err' Ho'. congruence.
Qed.

Lemma ProcessFile_error_no_data_witness :
  ProcessFile (one_file "customers.csv" five_rows_csv) 4 "missing.csv"
    (DomainsCount_zero,
     Some (PathError "open missing.csv: no such file or directory"))
  /\ (DomainsCount_zero,
      Some (PathError "open missing.csv: no such file or directory")).1
     = DomainsCount_zero.
Proof.
  assert (ProcessFile (one_file "customers.csv" five_rows_csv) 4 "missing.csv"
            (DomainsCount_zero,
             Some (PathError "open missing.csv: no such file or directory"))) as H.
  { apply (@ProcessFile_open ASCIIOnly). reflexivity. }
  split; [exact H|].
  apply (proj1 (ProcessFile_error_no_data ASCIIOnly _ _ _ _ H)). discriminate.
Defined.

Section MainFacts.
Context `{U : Unicode}.

Lemma WriteOutput_error domainsCount filePath w w' err :
  WriteOutput domainsCount filePath w = (w', Some err) ->
  disk w' = disk w /\ stdout w' = stdout w
  /\ (length (printed w) < length (printed w'))%nat.
Proof.
  assert (forall path, writeFile domainsCount path w = (w', Some err) ->
            disk w' = disk w /\ stdout w' = stdout w
            /\ (length (printed w) < length (printed w'))%nat) as Hfile.
  { intros path. unfold writeFile, os_OpenFile.
    destruct (disk w !! path) as [[content|text]|]; try done.
    intros [= <- _]. cbn [disk stdout printed]. rewrite length_app. cbn [length].
    repeat split; lia. }
  destruct filePath as [path|]; cbn [WriteOutput].
  - destruct (decide (path = "")); [by rewrite writeStdOut_text|apply Hfile].
  - by rewrite writeStdOut_text.
Qed.

End MainFacts.

(** X10. [main] ends with status 0 or 1; when it ends with 1 (a missing
    [-input], a file that cannot be processed, an output that cannot be
    opened) it has printed a line and has changed neither the disk nor the
    standard output. *)
Theorem main_failure_writes_nothing (U : Unicode) (fs : FileSystem) (NumCPU : Z)
    (input output : string) (w w' : World) (status : Z) :
  main fs NumCPU input output w (w', status) ->
  (status = 0 \/ status = 1)
  /\ (status = 1 ->
      disk w' = disk w /\ stdout w' = stdout w
      /\ (length (printed w) < length (printed w'))%nat).
Proof.
  intros H. inversion H as [Hi|dc err Hi Hp|dc w1 err Hi Hp Hw|dc w1 Hi Hp Hw]; subst.
  - split; [by right|]. intros _. cbn [disk stdout printed].
    rewrite length_app. cbn [length]. repeat split; lia.
  - split; [by right|]. intros _. cbn [disk stdout printed].
    rewrite length_app. cbn [length]. repeat split; lia.
  - split; [by right|]. intros _. cbn [disk stdout printed].
    destruct (WriteOutput_error _ _ _ _ _ Hw) as (Hd & Hs & Hl).
    rewrite length_app. cbn [length]. repeat split; [done|done|lia].
  - split; [by left|]. done.
Qed.

Lemma main_failure_writes_nothing_witness :
  main (one_file "customers.csv" five_rows_csv) 4 "" "out.txt" empty_world
    ({| disk := ∅; stdout := ""; printed := ["-input flag is required"] |}, 1)
  /\ disk {| disk := ∅; stdout := ""; printed := ["-input flag is required"] |}
     = disk empty_world.
Proof.
  assert (main (one_file "customers.csv" five_rows_csv) 4 "" "out.txt" empty_world
            ({| disk := ∅; stdout := ""; printed := ["-input flag is required"] |}, 1))
    as H.
  { apply (@main_no_input ASCIIOnly). reflexivity. }
  split; [exact H|].
  apply (proj2 (main_failure_writes_nothing ASCIIOnly _ _ _ _ _ _ _ H) eq_refl).
Defined.

(** X11. For an input file whose header can be read, [main] with at least
    one worker has one outcome: status 0 and the text of the report of the
    file, appended to the standard output when [-output] is empty, and left
    alone in the file of that path when it can be opened. *)
Theorem main_writes_report (U : Unicode) (fs : FileSystem) (NumCPU : Z)
    (input output : string) (header : list string) (rows : Csv.Reader)
    (w : World) (outcome : World * Z) :
  1 <= NumCPU ->
  input <> "" ->
  fs input = inl ((header, None) :: rows) ->
  (forall text, disk w !! output <> Some (Denied text)) ->
  let report :=
    {| DomainStats := createStats (aggregate (domains_of (emails rows))).1;
       TotalCount := (aggregate (domains_of (emails rows))).2 |} in
  main fs NumCPU input output w outcome <->
  outcome =
    (if decide (output = "")
     then {| disk := disk w; stdout := stdout w +:+ report_text report;
             printed := printed w |}
     else {| disk := <[output := File (report_text report)]> (disk w);
             stdout := stdout w; printed := printed w |},
     0).
Proof.
  intros Hn Hi Ho Hok report.
  assert (forall res, ProcessFile fs NumCPU input res <-> res = (report, None)) as Hp.
  { intros res. rewrite (ProcessFile_iff _ _ _ _ Hn), Ho.
    unfold ProcessFile_result. by rewrite processCsv_result_rows. }
  assert (WriteOutput report (Some output) w =
          (if decide (output = "")
           then {| disk := disk w; stdout := stdout w +:+ report_text report;
                   printed := printed w |}
           else {| disk := <[output := File (report_text report)]> (disk w);
                   stdout := stdout w; printed := printed w |},
           None)) as Hw.
  { cbn [WriteOutput]. destruct (decide (output = "")).
    - apply writeStdOut_text.
    - by apply writeFile_file_text. }
  split.
  - intros H. inversion H as [Hi'|dc err Hi' Hp'|dc w1 err Hi' Hp' Hw'|dc w1 Hi' Hp' Hw']; subst.
    + done.
    + by apply Hp in Hp'.
    + apply Hp in Hp'. injection Hp' as ->. rewrite Hw in Hw'. done.
    + apply Hp in Hp'. injection Hp' as ->. rewrite Hw in Hw'. by injection Hw' as <-.
  - intros ->. eapply main_done; [done|by apply Hp|exact Hw].
Qed.

Lemma main_writes_report_witness :
  main (one_file "customers.csv" five_rows_csv) 4 "customers.csv" "" empty_world
    ({| disk := ∅;
        stdout := report_text five_report;
        printed := [] |}, 0).
Proof.
  apply (main_writes_report ASCIIOnly (one_file "customers.csv" five_rows_csv) 4
           "customers.csv" ""
           ["first_name"; "last_name"; "email"; "gender"; "ip_address"]
           (tail (default [] (Csv.NewReader five_rows_csv))) empty_world).
  - lia.
  - discriminate.
  - vm_compute. reflexivity.
  - intros text. cbn [disk empty_world]. by rewrite lookup_empty.
  - vm_compute. reflexivity.
Defined.
